(** * Simon Says: the game engine of [src/app/game/simon/page.tsx]

    The component is a React function component.  Its behaviour is a
    state machine over
    - the React state variables ([useState]), which a handler reads from
      the render it was created in and writes through the setters,
    - the mutable ref [isSequenceCancelledRef],
    - the browser's timers ([setTimeout], [setInterval]), whose callbacks
      are closures over the values of the render that created them,
    - [localStorage], which holds the best score of each difficulty.

    Handlers are state transformers [State -> State]: the argument [s]
    is the render the handler closes over, the world [w] that is threaded
    through collects the queued updates.  Timer callbacks are first-order
    data ([Callback]) carrying exactly the values their closure captures.
    After every event React commits the queued updates and runs the
    effects whose dependencies changed ([commit]). *)

From Stdlib Require Import ZArith List Bool Lia QArith.
Import ListNotations.
Open Scope Z_scope.

(** ** Data model *)

Inductive GameState := idle | showing | input | success | failure.
Inductive Difficulty := easy | medium | hard.

Definition GameState_eqb (a b : GameState) : bool :=
  match a, b with
  | idle, idle | showing, showing | input, input
  | success, success | failure, failure => true
  | _, _ => false
  end.

Definition Difficulty_eqb (a b : Difficulty) : bool :=
  match a, b with
  | easy, easy | medium, medium | hard, hard => true
  | _, _ => false
  end.

(** [DIFFICULTY_CONFIG]: only the [buttons] field takes part in the logic
    ([name] and [gridClass] are labels of the view). *)
Record DifficultyConfig := { buttons : Z }.

Definition DIFFICULTY_CONFIG (d : Difficulty) : DifficultyConfig :=
  match d with
  | easy => {| buttons := 4 |}
  | medium => {| buttons := 7 |}
  | hard => {| buttons := 10 |}
  end.

Definition BUTTON_FREQUENCIES : list Q :=
  [26163 # 100; 32963 # 100; 39200 # 100; 52325 # 100; 65925 # 100;
   78399 # 100; 88000 # 100; 104650 # 100; 117466 # 100; 131851 # 100]%Q.

(** A JavaScript array read [a[i]]: [None] is [undefined], the value of a
    read outside the array. *)
Definition aget {A} (a : list A) (i : Z) : option A :=
  if i <? 0 then None else nth_error a (Z.to_nat i).

Definition len {A} (a : list A) : Z := Z.of_nat (length a).

(** [x !== y] on values that are a number or [undefined]. *)
Definition strict_neq (x y : option Z) : bool :=
  match x, y with
  | Some a, Some b => negb (a =? b)
  | None, None => false
  | _, _ => true
  end.

(** The frequency [playTone] hands to the oscillator.  The audio nodes
    themselves belong to the tone collaborator and carry no game state. *)
Definition playTone (buttonIndex : Z) : option Q :=
  aget BUTTON_FREQUENCIES buttonIndex.

(** ** Timers

    A timer callback is a closure; each constructor lists what the
    closure captures.  [showSequence] is itself a closure over the
    [sequenceInterval] of its render, so every callback that calls it
    carries that value ([si]).  The callbacks scheduled by a playback run
    refer to the run's interval handle ([run]). *)
Inductive Callback :=
| CbInterval (seq : list Z) (index : nat)   (* showSequence, l.132: the tick, with its local [index] *)
| CbClearHighlight (run : nat)              (* l.144: 400 ms after a highlight *)
| CbToInput (run : nat)                     (* l.154: 600 ms after the last tick *)
| CbPressClear                              (* l.179: 150 ms after a press *)
| CbStrictOver                              (* l.195: 1500 ms after a mistake, strict mode *)
| CbRetry (seq : list Z) (si : option nat)  (* l.203: 1500 ms after a mistake, otherwise *)
| CbNextRound (round : Z) (seq : list Z) (d : Difficulty) (si : option nat)
                                            (* l.216: 800 ms after a completed round *)
| CbResetShow (seq : list Z) (si : option nat). (* l.314: 50 ms after a restart *)

Record Timer := {
  tid : nat;              (* the handle; the browser counts them from 1 *)
  due : Z;                (* the time, in ms, at which it fires next *)
  period : option Z;      (* [Some p] for setInterval *)
  cb : Callback
}.

Definition LocalStorage := Difficulty -> option Z.

(** The key [simon-best-<difficulty>] holds the decimal text of a round
    number; the model keeps the number ([parseInt] of [toString]).  Such
    a text is never empty, so [if (saved)] asks whether the key is set. *)
Definition setItem (d : Difficulty) (v : Z) (st : LocalStorage) : LocalStorage :=
  fun d' => if Difficulty_eqb d' d then Some v else st d'.

Record State := {
  (* useState *)
  gameState : GameState;
  difficulty : Difficulty;
  sequence : list Z;
  playerInput : list Z;
  currentRound : Z;
  bestScore : Z;
  showingIndex : Z;
  strictMode : bool;
  sequenceInterval : option nat;
  buttonPressTimeout : option nat;
  (* useRef *)
  isSequenceCancelledRef : bool;
  (* the browser *)
  timers : list Timer;
  nextTimerId : nat;
  now : Z;
  localStorage : LocalStorage
}.

(** *** Setters *)

Definition setGameState (v : GameState) (w : State) : State :=
  {| gameState := v; difficulty := difficulty w; sequence := sequence w;
     playerInput := playerInput w; currentRound := currentRound w;
     bestScore := bestScore w; showingIndex := showingIndex w;
     strictMode := strictMode w; sequenceInterval := sequenceInterval w;
     buttonPressTimeout := buttonPressTimeout w;
     isSequenceCancelledRef := isSequenceCancelledRef w;
     timers := timers w; nextTimerId := nextTimerId w; now := now w;
     localStorage := localStorage w |}.

Definition setDifficulty (v : Difficulty) (w : State) : State :=
  {| gameState := gameState w; difficulty := v; sequence := sequence w;
     playerInput := playerInput w; currentRound := currentRound w;
     bestScore := bestScore w; showingIndex := showingIndex w;
     strictMode := strictMode w; sequenceInterval := sequenceInterval w;
     buttonPressTimeout := buttonPressTimeout w;
     isSequenceCancelledRef := isSequenceCancelledRef w;
     timers := timers w; nextTimerId := nextTimerId w; now := now w;
     localStorage := localStorage w |}.

Definition setSequence (v : list Z) (w : State) : State :=
  {| gameState := gameState w; difficulty := difficulty w; sequence := v;
     playerInput := playerInput w; currentRound := currentRound w;
     bestScore := bestScore w; showingIndex := showingIndex w;
     strictMode := strictMode w; sequenceInterval := sequenceInterval w;
     buttonPressTimeout := buttonPressTimeout w;
     isSequenceCancelledRef := isSequenceCancelledRef w;
     timers := timers w; nextTimerId := nextTimerId w; now := now w;
     localStorage := localStorage w |}.

Definition setPlayerInput (v : list Z) (w : State) : State :=
  {| gameState := gameState w; difficulty := difficulty w; sequence := sequence w;
     playerInput := v; currentRound := currentRound w;
     bestScore := bestScore w; showingIndex := showingIndex w;
     strictMode := strictMode w; sequenceInterval := sequenceInterval w;
     buttonPressTimeout := buttonPressTimeout w;
     isSequenceCancelledRef := isSequenceCancelledRef w;
     timers := timers w; nextTimerId := nextTimerId w; now := now w;
     localStorage := localStorage w |}.

Definition setCurrentRound (v : Z) (w : State) : State :=
  {| gameState := gameState w; difficulty := difficulty w; sequence := sequence w;
     playerInput := playerInput w; currentRound := v;
     bestScore := bestScore w; showingIndex := showingIndex w;
     strictMode := strictMode w; sequenceInterval := sequenceInterval w;
     buttonPressTimeout := buttonPressTimeout w;
     isSequenceCancelledRef := isSequenceCancelledRef w;
     timers := timers w; nextTimerId := nextTimerId w; now := now w;
     localStorage := localStorage w |}.

Definition setBestScore (v : Z) (w : State) : State :=
  {| gameState := gameState w; difficulty := difficulty w; sequence := sequence w;
     playerInput := playerInput w; currentRound := currentRound w;
     bestScore := v; showingIndex := showingIndex w;
     strictMode := strictMode w; sequenceInterval := sequenceInterval w;
     buttonPressTimeout := buttonPressTimeout w;
     isSequenceCancelledRef := isSequenceCancelledRef w;
     timers := timers w; nextTimerId := nextTimerId w; now := now w;
     localStorage := localStorage w |}.

Definition setShowingIndex (v : Z) (w : State) : State :=
  {| gameState := gameState w; difficulty := difficulty w; sequence := sequence w;
     playerInput := playerInput w; currentRound := currentRound w;
     bestScore := bestScore w; showingIndex := v;
     strictMode := strictMode w; sequenceInterval := sequenceInterval w;
     buttonPressTimeout := buttonPressTimeout w;
     isSequenceCancelledRef := isSequenceCancelledRef w;
     timers := timers w; nextTimerId := nextTimerId w; now := now w;
     localStorage := localStorage w |}.

Definition setStrictMode (v : bool) (w : State) : State :=
  {| gameState := gameState w; difficulty := difficulty w; sequence := sequence w;
     playerInput := playerInput w; currentRound := currentRound w;
     bestScore := bestScore w; showingIndex := showingIndex w;
     strictMode := v; sequenceInterval := sequenceInterval w;
     buttonPressTimeout := buttonPressTimeout w;
     isSequenceCancelledRef := isSequenceCancelledRef w;
     timers := timers w; nextTimerId := nextTimerId w; now := now w;
     localStorage := localStorage w |}.

Definition setSequenceInterval (v : option nat) (w : State) : State :=
  {| gameState := gameState w; difficulty := difficulty w; sequence := sequence w;
     playerInput := playerInput w; currentRound := currentRound w;
     bestScore := bestScore w; showingIndex := showingIndex w;
     strictMode := strictMode w; sequenceInterval := v;
     buttonPressTimeout := buttonPressTimeout w;
     isSequenceCancelledRef := isSequenceCancelledRef w;
     timers := timers w; nextTimerId := nextTimerId w; now := now w;
     localStorage := localStorage w |}.

Definition setButtonPressTimeout (v : option nat) (w : State) : State :=
  {| gameState := gameState w; difficulty := difficulty w; sequence := sequence w;
     playerInput := playerInput w; currentRound := currentRound w;
     bestScore := bestScore w; showingIndex := showingIndex w;
     strictMode := strictMode w; sequenceInterval := sequenceInterval w;
     buttonPressTimeout := v;
     isSequenceCancelledRef := isSequenceCancelledRef w;
     timers := timers w; nextTimerId := nextTimerId w; now := now w;
     localStorage := localStorage w |}.

(** [isSequenceCancelledRef.current = v] *)
Definition setCancelled (v : bool) (w : State) : State :=
  {| gameState := gameState w; difficulty := difficulty w; sequence := sequence w;
     playerInput := playerInput w; currentRound := currentRound w;
     bestScore := bestScore w; showingIndex := showingIndex w;
     strictMode := strictMode w; sequenceInterval := sequenceInterval w;
     buttonPressTimeout := buttonPressTimeout w;
     isSequenceCancelledRef := v;
     timers := timers w; nextTimerId := nextTimerId w; now := now w;
     localStorage := localStorage w |}.

Definition setTimers (v : list Timer) (w : State) : State :=
  {| gameState := gameState w; difficulty := difficulty w; sequence := sequence w;
     playerInput := playerInput w; currentRound := currentRound w;
     bestScore := bestScore w; showingIndex := showingIndex w;
     strictMode := strictMode w; sequenceInterval := sequenceInterval w;
     buttonPressTimeout := buttonPressTimeout w;
     isSequenceCancelledRef := isSequenceCancelledRef w;
     timers := v; nextTimerId := nextTimerId w; now := now w;
     localStorage := localStorage w |}.

Definition setNextTimerId (v : nat) (w : State) : State :=
  {| gameState := gameState w; difficulty := difficulty w; sequence := sequence w;
     playerInput := playerInput w; currentRound := currentRound w;
     bestScore := bestScore w; showingIndex := showingIndex w;
     strictMode := strictMode w; sequenceInterval := sequenceInterval w;
     buttonPressTimeout := buttonPressTimeout w;
     isSequenceCancelledRef := isSequenceCancelledRef w;
     timers := timers w; nextTimerId := v; now := now w;
     localStorage := localStorage w |}.

Definition setNow (v : Z) (w : State) : State :=
  {| gameState := gameState w; difficulty := difficulty w; sequence := sequence w;
     playerInput := playerInput w; currentRound := currentRound w;
     bestScore := bestScore w; showingIndex := showingIndex w;
     strictMode := strictMode w; sequenceInterval := sequenceInterval w;
     buttonPressTimeout := buttonPressTimeout w;
     isSequenceCancelledRef := isSequenceCancelledRef w;
     timers := timers w; nextTimerId := nextTimerId w; now := v;
     localStorage := localStorage w |}.

Definition setLocalStorage (v : LocalStorage) (w : State) : State :=
  {| gameState := gameState w; difficulty := difficulty w; sequence := sequence w;
     playerInput := playerInput w; currentRound := currentRound w;
     bestScore := bestScore w; showingIndex := showingIndex w;
     strictMode := strictMode w; sequenceInterval := sequenceInterval w;
     buttonPressTimeout := buttonPressTimeout w;
     isSequenceCancelledRef := isSequenceCancelledRef w;
     timers := timers w; nextTimerId := nextTimerId w; now := now w;
     localStorage := v |}.

(** *** The browser's timer interface *)

Definition addTimer (p : option Z) (c : Callback) (delay : Z) (w : State) : nat * State :=
  let id := nextTimerId w in
  (id, setNextTimerId (S id)
         (setTimers (timers w ++ [{| tid := id; due := now w + delay; period := p; cb := c |}]) w)).

Definition setTimeout (c : Callback) (delay : Z) (w : State) : nat * State :=
  addTimer None c delay w.

Definition setInterval (c : Callback) (delay : Z) (w : State) : nat * State :=
  addTimer (Some delay) c delay w.

(** [clearTimeout] and [clearInterval] share one pool of handles. *)
Definition clearTimer (id : nat) (w : State) : State :=
  setTimers (filter (fun t => negb (Nat.eqb (tid t) id)) (timers w)) w.

Definition clearHandle (h : option nat) (w : State) : State :=
  match h with
  | Some id => clearTimer id w
  | None => w
  end.

(** [index++] inside the tick: the closure of interval [me] keeps the new
    value for its next call. *)
Definition reindex (me : nat) (i : nat) (ts : list Timer) : list Timer :=
  map (fun t =>
         if Nat.eqb (tid t) me then
           match cb t with
           | CbInterval seq _ =>
               {| tid := tid t; due := due t; period := period t; cb := CbInterval seq i |}
           | _ => t
           end
         else t) ts.

Definition setIndex (me : nat) (i : nat) (w : State) : State :=
  setTimers (reindex me i (timers w)) w.

(** ** The component's functions *)

(** [showSequence(seq)], l.122-163.  [si] is the [sequenceInterval] of
    the render whose [showSequence] is called. *)
Definition showSequence (si : option nat) (seq : list Z) (w : State) : State :=
  let w := setShowingIndex (-1) w in
  let w := setCancelled false w in
  let w := clearHandle si w in
  let '(interval, w) := setInterval (CbInterval seq 0) 700 w in
  setSequenceInterval (Some interval) w.

(** The tick of the interval [me] of [showSequence], l.132-160. *)
Definition intervalTick (me : nat) (seq : list Z) (index : nat) (w : State) : State :=
  if isSequenceCancelledRef w then
    setSequenceInterval None (clearTimer me w)
  else if (index <? length seq)%nat then
    let w := setShowingIndex (nth index seq 0) w in
    let w := snd (setTimeout (CbClearHighlight me) 400 w) in
    setIndex me (S index) w
  else
    let w := clearTimer me w in
    let w := setSequenceInterval None w in
    snd (setTimeout (CbToInput me) 600 w).

(** [startGame], l.112-119; [r] is
    [Math.floor(Math.random() * DIFFICULTY_CONFIG[difficulty].buttons)]. *)
Definition startGame (r : Z) (s : State) : State :=
  let w := setGameState showing s in
  let w := setCurrentRound 1 w in
  let w := setPlayerInput [] w in
  let newSequence := [r] in
  let w := setSequence newSequence w in
  showSequence (sequenceInterval s) newSequence w.

(** [handleButtonClick], l.166-227. *)
Definition handleButtonClick (buttonIndex : Z) (s : State) : State :=
  if negb (GameState_eqb (gameState s) input) then s else
  let w := setShowingIndex buttonIndex s in
  let w := clearHandle (buttonPressTimeout s) w in
  let '(timeout, w) := setTimeout CbPressClear 150 w in
  let w := setButtonPressTimeout (Some timeout) w in
  let newInput := playerInput s ++ [buttonIndex] in
  let w := setPlayerInput newInput w in
  if strict_neq (aget newInput (len newInput - 1)) (aget (sequence s) (len newInput - 1)) then
    let w := setGameState failure w in
    if strictMode s then
      snd (setTimeout CbStrictOver 1500 w)
    else
      snd (setTimeout (CbRetry (sequence s) (sequenceInterval s)) 1500 w)
  else if len newInput =? len (sequence s) then
    let w := setGameState success w in
    snd (setTimeout
           (CbNextRound (currentRound s) (sequence s) (difficulty s) (sequenceInterval s))
           800 w)
  else w.

(** [resetGame], l.289-323. *)
Definition resetGame (r : Z) (s : State) : State :=
  let w := setCancelled true s in
  let w := match sequenceInterval s with
           | Some i => setSequenceInterval None (clearTimer i w)
           | None => w
           end in
  let w := match buttonPressTimeout s with
           | Some i => setButtonPressTimeout None (clearTimer i w)
           | None => w
           end in
  let w := setShowingIndex (-1) w in
  let w := setPlayerInput [] w in
  let w := setCurrentRound 1 w in
  if negb (GameState_eqb (gameState s) idle) then
    let newSequence := [r] in
    let w := setSequence newSequence w in
    let w := setGameState showing w in
    snd (setTimeout (CbResetShow newSequence (sequenceInterval s)) 50 w)
  else
    let w := setGameState idle w in
    let w := setCurrentRound 0 w in
    setSequence [] w.

(** [goToMenu], l.325-344. *)
Definition goToMenu (s : State) : State :=
  let w := setCancelled true s in
  let w := match sequenceInterval s with
           | Some i => setSequenceInterval None (clearTimer i w)
           | None => w
           end in
  let w := match buttonPressTimeout s with
           | Some i => setButtonPressTimeout None (clearTimer i w)
           | None => w
           end in
  let w := setGameState idle w in
  let w := setCurrentRound 0 w in
  let w := setSequence [] w in
  let w := setPlayerInput [] w in
  setShowingIndex (-1) w.

(** The body of a timer callback; [me] is the handle of the timer that
    fires, [r] the random index the callback draws (l.220) if it draws
    one. *)
Definition runCallback (r : Z) (me : nat) (c : Callback) (w : State) : State :=
  match c with
  | CbInterval seq index => intervalTick me seq index w
  | CbClearHighlight _ =>
      if negb (isSequenceCancelledRef w) then setShowingIndex (-1) w else w
  | CbToInput _ =>
      if negb (isSequenceCancelledRef w) then setGameState input w else w
  | CbPressClear => setShowingIndex (-1) w
  | CbStrictOver =>
      let w := setGameState idle w in
      let w := setCurrentRound 0 w in
      let w := setSequence [] w in
      setPlayerInput [] w
  | CbRetry seq si =>
      let w := setPlayerInput [] w in
      let w := setGameState showing w in
      showSequence si seq w
  | CbNextRound round seq d si =>
      let nextRound := round + 1 in
      let w := setCurrentRound nextRound w in
      let newSequence := seq ++ [r] in
      let w := setSequence newSequence w in
      let w := setPlayerInput [] w in
      let w := setGameState showing w in
      showSequence si newSequence w
  | CbResetShow seq si => showSequence si seq w
  end.

(** ** Effects

    An effect runs after a render when one of its dependencies differs
    from the previous render; it reads the values of the new render
    ([cur]) and queues its updates on [w]. *)

Definition handle_eqb (a b : option nat) : bool :=
  match a, b with
  | Some x, Some y => Nat.eqb x y
  | None, None => true
  | _, _ => false
  end.

(** l.278-287: the effect only returns a cleanup, which React calls with
    the handles of the previous render whenever a dependency changes. *)
Definition cleanupTimers (prev cur w : State) : State :=
  if handle_eqb (sequenceInterval prev) (sequenceInterval cur)
     && handle_eqb (buttonPressTimeout prev) (buttonPressTimeout cur)
  then w
  else clearHandle (buttonPressTimeout prev) (clearHandle (sequenceInterval prev) w).

(** l.45-48 *)
Definition loadBestScoreBody (cur w : State) : State :=
  match localStorage w (difficulty cur) with
  | Some saved => setBestScore saved w
  | None => w
  end.

Definition loadBestScore (prev cur w : State) : State :=
  if Difficulty_eqb (difficulty prev) (difficulty cur) then w
  else loadBestScoreBody cur w.

(** l.51-56 *)
Definition saveBestScoreBody (cur w : State) : State :=
  if currentRound cur >? bestScore cur then
    let w := setBestScore (currentRound cur) w in
    setLocalStorage (setItem (difficulty cur) (currentRound cur) (localStorage w)) w
  else w.

Definition saveBestScore (prev cur w : State) : State :=
  if (currentRound prev =? currentRound cur)
     && (bestScore prev =? bestScore cur)
     && Difficulty_eqb (difficulty prev) (difficulty cur)
  then w
  else saveBestScoreBody cur w.

(** One render of [cur] after [prev], with its effects: cleanups first,
    then the effect bodies in the order of their declaration. *)
Definition renderPass (prev cur : State) : State :=
  saveBestScore prev cur (loadBestScore prev cur (cleanupTimers prev cur cur)).

(** The updates an effect queues cause another render; the third one
    queues nothing any more ([commit_settled] below). *)
Definition commit (prev w : State) : State :=
  let w1 := renderPass prev w in
  let w2 := renderPass w w1 in
  renderPass w1 w2.

Definition initialState (st : LocalStorage) : State :=
  {| gameState := idle; difficulty := easy; sequence := []; playerInput := [];
     currentRound := 0; bestScore := 0; showingIndex := -1; strictMode := false;
     sequenceInterval := None; buttonPressTimeout := None;
     isSequenceCancelledRef := false;
     timers := []; nextTimerId := 1%nat; now := 0; localStorage := st |}.

(** Mounting the component: the first render runs every effect. *)
Definition mount (st : LocalStorage) : State :=
  let s0 := initialState st in
  let w1 := saveBestScoreBody s0 (loadBestScoreBody s0 s0) in
  let w2 := renderPass s0 w1 in
  renderPass w1 w2.

(** ** Events *)

Inductive Event :=
| Start (r : Z)                      (* the Start button, l.386 *)
| Click (b : Z)                      (* a game button or its key, l.411 and l.268 *)
| Restart (r : Z)                    (* Restart Round, l.421 *)
| Menu                               (* Back to Menu, l.424 *)
| SelectDifficulty (d : Difficulty)  (* l.370 *)
| ToggleStrict (b : bool)            (* l.382 *)
| Fire (r : Z)                       (* time passes until the next timer is due; it fires *)
| Wait (dt : Z).                     (* time passes, no timer being due before *)

(** The timer that fires next: the least [due], the first of the list
    among equals. *)
Fixpoint nextTimer (ts : list Timer) : option Timer :=
  match ts with
  | [] => None
  | t :: ts' =>
      match nextTimer ts' with
      | Some t' => if due t' <? due t then Some t' else Some t
      | None => Some t
      end
  end.

Definition rearm (t : Timer) (p : Z) (ts : list Timer) : list Timer :=
  map (fun t' =>
         if Nat.eqb (tid t') (tid t)
         then {| tid := tid t'; due := due t + p; period := period t'; cb := cb t' |}
         else t') ts.

Arguments rearm : simpl never.
Arguments reindex : simpl never.

Definition fire (r : Z) (t : Timer) (s : State) : State :=
  let w := setNow (Z.max (now s) (due t)) s in
  let w := match period t with
           | Some p => setTimers (rearm t p (timers w)) w
           | None => clearTimer (tid t) w
           end in
  runCallback r (tid t) (cb t) w.

Definition inRange (r : Z) (d : Difficulty) : bool :=
  (0 <=? r) && (r <? buttons (DIFFICULTY_CONFIG d)).

(** What the callback draws from [Math.random]. *)
Definition drawOk (r : Z) (c : Callback) : bool :=
  match c with
  | CbNextRound _ _ d _ => inRange r d
  | _ => true
  end.

(** One event.  The guards are those of the view: which buttons are
    rendered (l.362, l.393), the range of the game buttons (l.403) and of
    the keys (l.268). *)
Definition apply (ev : Event) (s : State) : option State :=
  match ev with
  | Start r =>
      if GameState_eqb (gameState s) idle && inRange r (difficulty s)
      then Some (commit s (startGame r s)) else None
  | Click b =>
      if inRange b (difficulty s)
      then Some (commit s (handleButtonClick b s)) else None
  | Restart r =>
      if negb (GameState_eqb (gameState s) idle) && inRange r (difficulty s)
      then Some (commit s (resetGame r s)) else None
  | Menu =>
      if negb (GameState_eqb (gameState s) idle)
      then Some (commit s (goToMenu s)) else None
  | SelectDifficulty d =>
      if GameState_eqb (gameState s) idle
      then Some (commit s (setDifficulty d s)) else None
  | ToggleStrict b =>
      if GameState_eqb (gameState s) idle
      then Some (commit s (setStrictMode b s)) else None
  | Fire r =>
      match nextTimer (timers s) with
      | Some t => if drawOk r (cb t) then Some (commit s (fire r t s)) else None
      | None => None
      end
  | Wait dt =>
      if (0 <=? dt) && forallb (fun t => now s + dt <=? due t) (timers s)
      then Some (setNow (now s + dt) s) else None
  end.

Fixpoint run (evs : list Event) (s : State) : option State :=
  match evs with
  | [] => Some s
  | ev :: evs' =>
      match apply ev s with
      | Some s' => run evs' s'
      | None => None
      end
  end.

Definition emptyStorage : LocalStorage := fun _ => None.

Inductive reachable : State -> Prop :=
| reachable_mount st : reachable (mount st)
| reachable_step s ev s' : reachable s -> apply ev s = Some s' -> reachable s'.

(** ** Predicates of the proofs *)

(** The fields a commit leaves as the handler set them: the effects write
    [bestScore] and [localStorage] and clear timers, nothing else. *)
Definition core (s : State) :=
  (gameState s, difficulty s, sequence s, playerInput s, currentRound s,
   showingIndex s, strictMode s, sequenceInterval s, buttonPressTimeout s,
   isSequenceCancelledRef s, nextTimerId s, now s).

(** Timer handles are handed out in increasing order: every handle in
    use is below the next one. *)
Definition fresh (s : State) : Prop :=
  (forall t, In t (timers s) -> (tid t < nextTimerId s)%nat) /\
  (forall i, sequenceInterval s = Some i -> (i < nextTimerId s)%nat) /\
  (forall i, buttonPressTimeout s = Some i -> (i < nextTimerId s)%nat).

(** The invariant behind C2: the sequence is as long as the round
    counter says, also in what a pending round-completion callback
    captured. *)
Definition capturedRoundOk (t : Timer) : Prop :=
  match cb t with
  | CbNextRound round seq _ _ => len seq = round
  | _ => True
  end.

Definition roundMatches (s : State) : Prop :=
  len (sequence s) = currentRound s /\
  forall t, In t (timers s) -> capturedRoundOk t.

(** Handles are never handed out twice. *)
Definition ordered (n : nat) (ts : list Timer) : Prop :=
  NoDup (map tid ts) /\ forall t, In t ts -> (tid t < n)%nat.

Definition distinct (s : State) : Prop := ordered (nextTimerId s) (timers s).

(** Only the tick of a playback is a [setInterval]. *)
Definition wellTimed (t : Timer) : Prop :=
  match cb t with
  | CbInterval _ _ => period t <> None
  | _ => period t = None
  end.

(** The callbacks that drive the game: all but the two that only clear
    the highlight. *)
Definition major (c : Callback) : bool :=
  match c with
  | CbClearHighlight _ | CbPressClear => false
  | _ => true
  end.

Definition majors (ts : list Timer) : list Timer :=
  filter (fun t => major (cb t)) ts.

Arguments majors : simpl never.

(** The callbacks neither Restart nor Back to Menu cancels: they are
    timeouts whose handle the component does not keep. *)
Definition critical (c : Callback) : bool :=
  match c with
  | CbInterval _ _ | CbClearHighlight _ | CbPressClear => false
  | _ => true
  end.

(** An event is calm when it is not a Restart or a Back to Menu pressed
    while such a callback is pending. *)
Definition calm (ev : Event) (s : State) : bool :=
  match ev with
  | Restart _ | Menu => forallb (fun t => negb (critical (cb t))) (timers s)
  | _ => true
  end.

Inductive calmlyReachable : State -> Prop :=
| calmly_mount st : calmlyReachable (mount st)
| calmly_step s ev s' :
    calmlyReachable s -> calm ev s = true -> apply ev s = Some s' ->
    calmlyReachable s'.

(** What each state of the game looks like on calm runs. *)
Definition phaseOk (s : State) : Prop :=
  match gameState s with
  | idle =>
      majors (timers s) = [] /\ sequence s = [] /\ playerInput s = []
  | showing =>
      playerInput s = [] /\ sequence s <> [] /\
      exists t, majors (timers s) = [t] /\
        match cb t with
        | CbInterval _ _ =>
            sequenceInterval s = Some (tid t) /\ isSequenceCancelledRef s = false
        | CbToInput _ => isSequenceCancelledRef s = false
        | CbResetShow _ _ => True
        | _ => False
        end
  | input =>
      majors (timers s) = [] /\
      exists rest, rest <> [] /\ sequence s = playerInput s ++ rest
  | success =>
      playerInput s = sequence s /\ sequence s <> [] /\
      exists t, majors (timers s) = [t] /\
        exists round seq d si, cb t = CbNextRound round seq d si
  | failure =>
      (exists p b rest,
         playerInput s = p ++ [b] /\ sequence s = p ++ rest /\
         rest <> [] /\ hd_error rest <> Some b) /\
      exists t, majors (timers s) = [t] /\
        (cb t = CbStrictOver \/ exists seq si, cb t = CbRetry seq si)
  end.

(** The cleanup of a commit leaves the major timers of [w] alone: the
    handles did not change, or the major timers are younger than the
    previous render. *)
Definition keptByCleanup (p w : State) : Prop :=
  (sequenceInterval p = sequenceInterval w /\
   buttonPressTimeout p = buttonPressTimeout w) \/
  forall t, In t (majors (timers w)) -> (nextTimerId p <= tid t)%nat.

Definition tidy (s : State) : Prop :=
  distinct s /\ fresh s /\ (forall t, In t (timers s) -> wellTimed t) /\ phaseOk s.

(** The callbacks of the settle delays: l.195 and l.203 after a mistake,
    l.216 after a completed round. *)
Definition settles (c : Callback) : bool :=
  match c with
  | CbStrictOver | CbRetry _ _ | CbNextRound _ _ _ _ => true
  | _ => false
  end.

(** ** Example runs *)

Definition exec (evs : list Event) (s : State) : State :=
  match run evs s with
  | Some s' => s'
  | None => s
  end.

(** Easy, not strict, sequence [2]: the playback (tick at 700 ms, clear
    at 1100, last tick at 1400) has ended in [input] at 2000 ms. *)
Definition played2 : State :=
  exec [Start 2; Fire 0; Fire 0; Fire 0; Fire 0] (mount emptyStorage).

(** The same in strict mode. *)
Definition played2strict : State :=
  exec [ToggleStrict true; Start 2; Fire 0; Fire 0; Fire 0; Fire 0] (mount emptyStorage).

(** Sequence [2], the player presses 3: a mistake at the last position. *)
Definition missedLast : State := exec [Click 3] played2.

(** A playback cancelled during its settle delay.  Easy, sequence [0]:
    tick at 700 ms, clear at 1100, last tick at 1400, which schedules the
    change to [input] for 2000.  Restart is pressed at 1500. *)
Definition cancelledInSettle : State :=
  exec [Start 0; Fire 0; Fire 0; Fire 0; Wait 100; Restart 1] (mount emptyStorage).

(** 50 ms later the playback of the new sequence [1] starts. *)
Definition restartedInSettle : State := exec [Fire 0] cancelledInSettle.

(** A second difficulty.  Easy: sequence [0] is played and repeated, the
    round becomes 2 and is stored as the best of easy.  Back to Menu,
    medium is selected and a game is started: round 1 of medium. *)
Definition mediumRound1 : State :=
  exec [Start 0; Fire 0; Fire 0; Fire 0; Fire 0; Click 0; Fire 0; Fire 1;
        Menu; SelectDifficulty medium; Start 3]
       (mount emptyStorage).

(** Its sequence [3] is played and repeated: round 2 of medium. *)
Definition mediumRound2 : State :=
  exec [Fire 0; Fire 0; Fire 0; Fire 0; Click 3; Fire 0; Fire 5] mediumRound1.

(** Restart pressed during the settle delay of a mistake, strict mode.
    Sequence [2] is played (input at 2000 ms), the player presses 3;
    Restart at 2100, its playback of [1] starts at 2150 (tick at 2850,
    clear at 3250); the game-over callback of the mistake fires at 3500
    and empties the sequence; the playback ends at 3550 and sets [input]
    at 4150. *)
Definition restartedAfterMistake : State :=
  exec [ToggleStrict true; Start 2; Fire 0; Fire 0; Fire 0; Fire 0; Click 3;
        Wait 100; Restart 1; Fire 0; Fire 0; Fire 0; Fire 0; Fire 0; Fire 0]
       (mount emptyStorage).

(** * Properties *)

(** ** Boolean tests *)

Lemma GameState_eqb_eq a b : GameState_eqb a b = true <-> a = b.
Proof. destruct a, b; cbn; split; congruence. Qed.

Lemma GameState_eqb_refl a : GameState_eqb a a = true.
Proof. now destruct a. Qed.

Lemma Difficulty_eqb_refl a : Difficulty_eqb a a = true.
Proof. now destruct a. Qed.

Lemma handle_eqb_refl h : handle_eqb h h = true.
Proof. destruct h; cbn; auto using Nat.eqb_refl. Qed.

Lemma strict_neq_false x y : strict_neq x y = false <-> x = y.
Proof.
  destruct x as [a|], y as [b|]; cbn; split; try congruence.
  - rewrite negb_false_iff, Z.eqb_eq. congruence.
  - intros [= ->]. now rewrite Z.eqb_refl.
Qed.

Lemma aget_last (l : list Z) (b : Z) : aget (l ++ [b]) (len (l ++ [b]) - 1) = Some b.
Proof.
  unfold aget, len. rewrite length_app. cbn [length].
  destruct (_ <? 0) eqn:E; [apply Z.ltb_lt in E; lia|].
  replace (Z.to_nat _) with (length l) by lia.
  rewrite nth_error_app2, Nat.sub_diag by lia. reflexivity.
Qed.

Lemma len_app1 (l : list Z) (b : Z) : len (l ++ [b]) = len l + 1.
Proof. unfold len. rewrite length_app. cbn. lia. Qed.

(** ** What a commit changes *)

Lemma clearHandle_core h w : core (clearHandle h w) = core w.
Proof. now destruct h. Qed.

Lemma cleanupTimers_core p c w : core (cleanupTimers p c w) = core w.
Proof.
  unfold cleanupTimers. destruct (_ && _); [reflexivity|].
  now rewrite !clearHandle_core.
Qed.

Lemma loadBestScore_core p c w : core (loadBestScore p c w) = core w.
Proof.
  unfold loadBestScore, loadBestScoreBody.
  destruct (Difficulty_eqb _ _); [reflexivity|].
  now destruct (localStorage w _).
Qed.

Lemma saveBestScore_core p c w : core (saveBestScore p c w) = core w.
Proof.
  unfold saveBestScore, saveBestScoreBody.
  destruct (_ && _); [reflexivity|].
  now destruct (_ >? _).
Qed.

Lemma renderPass_core p c : core (renderPass p c) = core c.
Proof.
  unfold renderPass.
  now rewrite saveBestScore_core, loadBestScore_core, cleanupTimers_core.
Qed.

Lemma commit_core p w : core (commit p w) = core w.
Proof. unfold commit. now rewrite !renderPass_core. Qed.

Ltac core_field H :=
  unfold core in H; injection H; intros; congruence.

Lemma commit_gameState p w : gameState (commit p w) = gameState w.
Proof. pose proof (commit_core p w) as H. core_field H. Qed.

Lemma commit_difficulty p w : difficulty (commit p w) = difficulty w.
Proof. pose proof (commit_core p w) as H. core_field H. Qed.

Lemma commit_sequence p w : sequence (commit p w) = sequence w.
Proof. pose proof (commit_core p w) as H. core_field H. Qed.

Lemma commit_playerInput p w : playerInput (commit p w) = playerInput w.
Proof. pose proof (commit_core p w) as H. core_field H. Qed.

Lemma commit_currentRound p w : currentRound (commit p w) = currentRound w.
Proof. pose proof (commit_core p w) as H. core_field H. Qed.

Lemma commit_showingIndex p w : showingIndex (commit p w) = showingIndex w.
Proof. pose proof (commit_core p w) as H. core_field H. Qed.

Lemma commit_strictMode p w : strictMode (commit p w) = strictMode w.
Proof. pose proof (commit_core p w) as H. core_field H. Qed.

Lemma commit_sequenceInterval p w : sequenceInterval (commit p w) = sequenceInterval w.
Proof. pose proof (commit_core p w) as H. core_field H. Qed.

Lemma commit_buttonPressTimeout p w :
  buttonPressTimeout (commit p w) = buttonPressTimeout w.
Proof. pose proof (commit_core p w) as H. core_field H. Qed.

Lemma commit_cancelled p w :
  isSequenceCancelledRef (commit p w) = isSequenceCancelledRef w.
Proof. pose proof (commit_core p w) as H. core_field H. Qed.

Lemma commit_nextTimerId p w : nextTimerId (commit p w) = nextTimerId w.
Proof. pose proof (commit_core p w) as H. core_field H. Qed.


(** The effects touch the timers only through the cleanup of the first
    render. *)
Lemma loadBestScore_timers p c w : timers (loadBestScore p c w) = timers w.
Proof.
  unfold loadBestScore, loadBestScoreBody.
  destruct (Difficulty_eqb _ _); [reflexivity|].
  now destruct (localStorage w _).
Qed.

Lemma saveBestScore_timers p c w : timers (saveBestScore p c w) = timers w.
Proof.
  unfold saveBestScore, saveBestScoreBody.
  destruct (_ && _); [reflexivity|].
  now destruct (_ >? _).
Qed.

Lemma renderPass_timers p c : timers (renderPass p c) = timers (cleanupTimers p c c).
Proof. unfold renderPass. now rewrite saveBestScore_timers, loadBestScore_timers. Qed.

Lemma renderPass_same_handles p c :
  sequenceInterval p = sequenceInterval c ->
  buttonPressTimeout p = buttonPressTimeout c ->
  timers (renderPass p c) = timers c.
Proof.
  intros H1 H2. rewrite renderPass_timers. unfold cleanupTimers.
  now rewrite H1, H2, !handle_eqb_refl.
Qed.

Lemma renderPass_handles p c :
  sequenceInterval (renderPass p c) = sequenceInterval c /\
  buttonPressTimeout (renderPass p c) = buttonPressTimeout c.
Proof. pose proof (renderPass_core p c) as H. split; core_field H. Qed.

Lemma commit_timers p w : timers (commit p w) = timers (cleanupTimers p w w).
Proof.
  unfold commit.
  destruct (renderPass_handles p w) as [A1 A2].
  destruct (renderPass_handles w (renderPass p w)) as [B1 B2].
  rewrite renderPass_same_handles by congruence.
  rewrite renderPass_same_handles by congruence.
  apply renderPass_timers.
Qed.

Lemma renderPass_same s : renderPass s s = s.
Proof.
  unfold renderPass, cleanupTimers, loadBestScore, saveBestScore.
  now rewrite !handle_eqb_refl, Difficulty_eqb_refl, !Z.eqb_refl.
Qed.

Lemma commit_same s : commit s s = s.
Proof. unfold commit. now rewrite !renderPass_same. Qed.

Lemma clearTimer_In id w t :
  In t (timers (clearTimer id w)) <-> In t (timers w) /\ tid t <> id.
Proof.
  unfold clearTimer. cbn. rewrite filter_In, negb_true_iff, Nat.eqb_neq. tauto.
Qed.

Lemma clearHandle_In h w t :
  In t (timers (clearHandle h w)) <-> In t (timers w) /\ h <> Some (tid t).
Proof.
  destruct h as [i|]; cbn [clearHandle].
  - rewrite clearTimer_In. split; intros [H1 H2]; split; auto; congruence.
  - split; [intros H; split; [auto|discriminate] | tauto].
Qed.

Lemma cleanupTimers_In p c w t :
  In t (timers (cleanupTimers p c w)) -> In t (timers w).
Proof.
  unfold cleanupTimers. destruct (_ && _); [auto|].
  rewrite !clearHandle_In. tauto.
Qed.

Lemma commit_In p w t : In t (timers (commit p w)) -> In t (timers w).
Proof. rewrite commit_timers. apply cleanupTimers_In. Qed.


(** ** Timer handles are fresh *)

Lemma nextTimer_In ts t : nextTimer ts = Some t -> In t ts.
Proof.
  revert t. induction ts as [|a ts IH]; cbn; [discriminate|].
  intros t. destruct (nextTimer ts) as [t'|].
  - destruct (_ <? _); intros [= <-]; auto.
  - intros [= <-]; auto.
Qed.

Lemma rearm_In t p ts x :
  In x (rearm t p ts) -> exists y, In y ts /\ tid y = tid x /\ cb y = cb x /\ period y = period x.
Proof.
  unfold rearm. rewrite in_map_iff. intros (y & <- & Hy). exists y.
  destruct (Nat.eqb _ _); cbn; auto.
Qed.

Lemma reindex_In me i ts x :
  In x (reindex me i ts) ->
  exists y, In y ts /\ tid y = tid x /\ due y = due x /\ period y = period x /\
            (cb y = cb x \/ exists seq j k, cb y = CbInterval seq j /\ cb x = CbInterval seq k).
Proof.
  unfold reindex. rewrite in_map_iff. intros (y & <- & Hy). exists y.
  destruct (Nat.eqb _ _); cbn; auto 6.
  destruct (cb y) eqn:E; cbn; rewrite ?E; eauto 10.
Qed.

Lemma fresh_commit p w : fresh w -> fresh (commit p w).
Proof.
  intros (H1 & H2 & H3). unfold fresh.
  rewrite commit_nextTimerId, commit_sequenceInterval, commit_buttonPressTimeout.
  repeat split; auto. intros t Ht. apply commit_In in Ht. auto.
Qed.

(** Rewriting the timers of a world built by the setters. *)
Ltac timers_in :=
  repeat (cbn in * |- ||
          match goal with
          | H : In _ (_ ++ _) |- _ => apply in_app_or in H; destruct H
          | H : In _ [_] |- _ => destruct H as [<-|[]]
          | H : _ \/ False |- _ => destruct H as [H|[]]
          | H : _ = ?t |- _ => is_var t; subst t
          | H : In _ (timers (clearHandle _ _)) |- _ => apply clearHandle_In in H; destruct H
          | H : In _ (timers (clearTimer _ _)) |- _ => apply clearTimer_In in H; destruct H
          | H : In _ (filter _ _) |- _ => apply filter_In in H; destruct H
          end).

Lemma clearHandle_nextTimerId h w : nextTimerId (clearHandle h w) = nextTimerId w.
Proof. now destruct h. Qed.

Lemma clearHandle_sequenceInterval h w :
  sequenceInterval (clearHandle h w) = sequenceInterval w.
Proof. now destruct h. Qed.

Lemma clearHandle_buttonPressTimeout h w :
  buttonPressTimeout (clearHandle h w) = buttonPressTimeout w.
Proof. now destruct h. Qed.

Lemma clearHandle_now h w : now (clearHandle h w) = now w.
Proof. now destruct h. Qed.

Lemma clearHandle_gameState h w : gameState (clearHandle h w) = gameState w.
Proof. now destruct h. Qed.

Lemma clearHandle_sequence h w : sequence (clearHandle h w) = sequence w.
Proof. now destruct h. Qed.

Lemma clearHandle_playerInput h w : playerInput (clearHandle h w) = playerInput w.
Proof. now destruct h. Qed.

Lemma clearHandle_currentRound h w : currentRound (clearHandle h w) = currentRound w.
Proof. now destruct h. Qed.

Lemma clearHandle_cancelled h w :
  isSequenceCancelledRef (clearHandle h w) = isSequenceCancelledRef w.
Proof. now destruct h. Qed.

Create Rewrite HintDb simon.
#[local] Hint Rewrite clearHandle_nextTimerId clearHandle_sequenceInterval
  clearHandle_buttonPressTimeout clearHandle_now clearHandle_gameState
  clearHandle_sequence clearHandle_playerInput clearHandle_currentRound
  clearHandle_cancelled : simon.

Ltac fresh_close H1 :=
  cbn; autorewrite with simon; cbn;
  first [ lia
        | match goal with
          | H : In _ (timers _) |- _ => apply H1 in H; cbn in *; lia
          end ].

Ltac handle_close H2 H3 :=
  let k := fresh "k" in
  let Hk := fresh "Hk" in
  intros k Hk; autorewrite with simon in Hk; cbn in Hk;
  autorewrite with simon; cbn; autorewrite with simon; cbn;
  try match goal with
      | E : ?x = Some _ |- _ =>
          tryif constr_eq E Hk then fail
          else match type of Hk with x = Some _ => rewrite E in Hk end
      end;
  first [ discriminate Hk
        | congruence
        | injection Hk as <-; lia
        | apply H2 in Hk; lia
        | apply H3 in Hk; lia ].

Ltac fresh_goals H1 H2 H3 :=
  unfold fresh; cbn; autorewrite with simon; cbn;
  repeat split;
  [ let t := fresh "t" in
    let Ht := fresh "Ht" in
    intros t Ht; timers_in; fresh_close H1
  | handle_close H2 H3
  | handle_close H2 H3 ].

Lemma fresh_showSequence si seq w : fresh w -> fresh (showSequence si seq w).
Proof.
  intros (H1 & H2 & H3). unfold showSequence. cbn. fresh_goals H1 H2 H3.
Qed.

Lemma fresh_startGame r s : fresh s -> fresh (startGame r s).
Proof. intros H. unfold startGame. apply fresh_showSequence. exact H. Qed.

Lemma fresh_handleButtonClick b s : fresh s -> fresh (handleButtonClick b s).
Proof.
  intros (H1 & H2 & H3). unfold handleButtonClick.
  destruct (negb _); [now repeat split|].
  cbn. destruct (strict_neq _ _); [destruct (strictMode s)|destruct (_ =? _)];
    fresh_goals H1 H2 H3.
Qed.

Lemma fresh_resetGame r s : fresh s -> fresh (resetGame r s).
Proof.
  intros (H1 & H2 & H3). unfold resetGame.
  destruct (sequenceInterval s) as [i|] eqn:Ei, (buttonPressTimeout s) as [j|] eqn:Ej,
    (negb _); cbn; rewrite ?Ei, ?Ej; fresh_goals H1 H2 H3.
Qed.

Lemma fresh_goToMenu s : fresh s -> fresh (goToMenu s).
Proof.
  intros (H1 & H2 & H3). unfold goToMenu.
  destruct (sequenceInterval s) as [i|] eqn:Ei, (buttonPressTimeout s) as [j|] eqn:Ej;
    cbn; rewrite ?Ei, ?Ej; fresh_goals H1 H2 H3.
Qed.

Lemma fresh_intervalTick me seq index w :
  fresh w -> fresh (intervalTick me seq index w).
Proof.
  intros (H1 & H2 & H3). unfold intervalTick.
  destruct (isSequenceCancelledRef w); [|destruct (_ <? _)%nat].
  - fresh_goals H1 H2 H3.
  - unfold fresh; repeat split; cbn.
    + intros t Ht. apply reindex_In in Ht. destruct Ht as (y & Hy & <- & _).
      timers_in; fresh_close H1.
    + handle_close H2 H3.
    + handle_close H2 H3.
  - fresh_goals H1 H2 H3.
Qed.

Lemma fresh_runCallback r me c w : fresh w -> fresh (runCallback r me c w).
Proof.
  intros H. destruct c; cbn [runCallback].
  - now apply fresh_intervalTick.
  - destruct (negb _); auto.
  - destruct (negb _); auto.
  - exact H.
  - exact H.
  - now apply fresh_showSequence.
  - now apply fresh_showSequence.
  - now apply fresh_showSequence.
Qed.

Lemma fresh_fire r t s : fresh s -> fresh (fire r t s).
Proof.
  intros (H1 & H2 & H3). unfold fire. apply fresh_runCallback.
  destruct (period t); repeat split; cbn; auto.
  - intros x Hx. apply rearm_In in Hx. destruct Hx as (y & Hy & <- & _). auto.
  - intros x Hx. timers_in; fresh_close H1.
Qed.

Lemma renderPass_In p c t : In t (timers (renderPass p c)) -> In t (timers c).
Proof. rewrite renderPass_timers. apply cleanupTimers_In. Qed.

Lemma mount_core st : core (mount st) = core (initialState st).
Proof.
  unfold mount. rewrite !renderPass_core.
  unfold loadBestScoreBody, saveBestScoreBody. cbn.
  now destruct (st easy).
Qed.

Lemma mount_timers st : timers (mount st) = [].
Proof.
  destruct (timers (mount st)) as [|t ts] eqn:E; [reflexivity|].
  assert (In t (timers (mount st))) as H by (rewrite E; now left).
  unfold mount in H. do 2 apply renderPass_In in H.
  unfold loadBestScoreBody, saveBestScoreBody in H. cbn in H.
  now destruct (st easy).
Qed.

Lemma fresh_mount st : fresh (mount st).
Proof.
  pose proof (mount_core st) as H. unfold core in H. cbn in H.
  injection H as _ _ _ _ _ _ _ E1 E2 _ E3 _.
  unfold fresh. rewrite mount_timers, E1, E2. repeat split; easy.
Qed.



Lemma handleButtonClick_cases (s : State) (b : Z) :
  gameState s = input ->
  let newInput := playerInput s ++ [b] in
  let w0 := setPlayerInput newInput
              (setButtonPressTimeout (Some (nextTimerId s))
                 (snd (setTimeout CbPressClear 150
                         (clearHandle (buttonPressTimeout s) (setShowingIndex b s))))) in
  handleButtonClick b s =
    if strict_neq (Some b) (aget (sequence s) (len newInput - 1)) then
      snd (setTimeout
             (if strictMode s then CbStrictOver
              else CbRetry (sequence s) (sequenceInterval s))
             1500 (setGameState failure w0))
    else if len newInput =? len (sequence s) then
      snd (setTimeout
             (CbNextRound (currentRound s) (sequence s) (difficulty s) (sequenceInterval s))
             800 (setGameState success w0))
    else w0.
Proof.
  intros H. cbv zeta. unfold handleButtonClick.
  rewrite H. cbn [GameState_eqb negb].
  rewrite (aget_last (playerInput s) b).
  unfold setTimeout, addTimer. cbn [fst snd].
  autorewrite with simon. cbn [nextTimerId setShowingIndex].
  destruct (strict_neq _ _); [destruct (strictMode s)|]; reflexivity.
Qed.

Lemma strict_neq_Some b y : strict_neq (Some b) y = false <-> y = Some b.
Proof. rewrite strict_neq_false. split; congruence. Qed.

Lemma strict_neq_Some_true b y : strict_neq (Some b) y = true <-> y <> Some b.
Proof.
  rewrite <- strict_neq_Some. destruct (strict_neq _ _); split; congruence.
Qed.

(** C9: a button index submitted while [gameState] is not [input] is
    ignored entirely: the handler returns at its first line, nothing is
    queued, and the state after the commit is the state before it, so
    [gameState], [sequence], [playerInput], [currentRound], [bestScore]
    and the highlight [showingIndex] are all unchanged. *)
Theorem C9_submission_ignored_unless_input (s : State) (b : Z) :
  gameState s <> input ->
  let s' := commit s (handleButtonClick b s) in
  s' = s /\
  gameState s' = gameState s /\ sequence s' = sequence s /\
  playerInput s' = playerInput s /\ currentRound s' = currentRound s /\
  bestScore s' = bestScore s /\ showingIndex s' = showingIndex s.
Proof.
  intros H. cbv zeta.
  assert (handleButtonClick b s = s) as ->.
  { unfold handleButtonClick.
    destruct (GameState_eqb (gameState s) input) eqn:E; [|reflexivity].
    apply GameState_eqb_eq in E. contradiction. }
  rewrite commit_same. repeat split.
Qed.

Lemma C9_witness :
  gameState (mount emptyStorage) <> input /\
  commit (mount emptyStorage) (handleButtonClick 2 (mount emptyStorage))
  = mount emptyStorage.
Proof.
  assert (gameState (mount emptyStorage) <> input) as H by (vm_compute; discriminate).
  split; [exact H|].
  exact (proj1 (C9_submission_ignored_unless_input (mount emptyStorage) 2 H)).
Defined.

(** C1: input verification.  While [gameState] is [input], a submitted
    index [b] is appended to [playerInput] and compared with [sequence]
    at position [len(playerInput) - 1] of the extended input.  Equal and
    still shorter than the sequence: the state stays [input] and no timer
    but the press highlight's is added.  Equal and as long as the
    sequence: [success].  Not equal: [failure], whatever [strictMode]. *)
Theorem C1_input_verification (s : State) (b : Z) :
  gameState s = input ->
  let newInput := playerInput s ++ [b] in
  let s' := commit s (handleButtonClick b s) in
  playerInput s' = newInput /\
  (aget (sequence s) (len newInput - 1) = Some b ->
   len newInput < len (sequence s) ->
   gameState s' = input /\
   forall t, In t (timers s') -> In t (timers s) \/ cb t = CbPressClear) /\
  (aget (sequence s) (len newInput - 1) = Some b ->
   len newInput = len (sequence s) ->
   gameState s' = success) /\
  (aget (sequence s) (len newInput - 1) <> Some b ->
   gameState s' = failure).
Proof.
  intros H. cbv zeta.
  rewrite commit_playerInput, commit_gameState.
  rewrite (handleButtonClick_cases s b H). cbv zeta.
  repeat split.
  - destruct (strict_neq _ _); [destruct (strictMode s)|destruct (_ =? _)]; reflexivity.
  - apply strict_neq_Some in H0. rewrite H0.
    destruct (_ =? _) eqn:E; [apply Z.eqb_eq in E; lia|].
    cbn. autorewrite with simon. exact H.
  - intros t Ht. apply commit_In in Ht.
    apply strict_neq_Some in H0. rewrite H0 in Ht.
    destruct (_ =? _) eqn:E; [apply Z.eqb_eq in E; lia|].
    timers_in; auto.
  - intros E1 E2. apply strict_neq_Some in E1. rewrite E1.
    apply Z.eqb_eq in E2. rewrite E2. reflexivity.
  - intros E1. apply strict_neq_Some_true in E1. rewrite E1.
    destruct (strictMode s); reflexivity.
Qed.

Lemma C1_witness :
  gameState played2 = input /\
  playerInput (commit played2 (handleButtonClick 2 played2)) = [2] /\
  gameState (commit played2 (handleButtonClick 2 played2)) = success /\
  gameState (commit played2 (handleButtonClick 3 played2)) = failure.
Proof.
  assert (gameState played2 = input) as H by (vm_compute; reflexivity).
  destruct (C1_input_verification played2 2 H) as (A & _ & C & _).
  destruct (C1_input_verification played2 3 H) as (_ & _ & _ & D).
  split; [exact H|]. split; [exact A|]. split.
  - apply C; vm_compute; reflexivity.
  - apply D. vm_compute. discriminate.
Defined.

(** ** The round counter and the length of the sequence *)

Lemma capturedRoundOk_cb t t' : cb t = cb t' -> capturedRoundOk t -> capturedRoundOk t'.
Proof. unfold capturedRoundOk. now intros ->. Qed.

Lemma roundMatches_commit p w : roundMatches w -> roundMatches (commit p w).
Proof.
  intros [H1 H2]. split.
  - now rewrite commit_sequence, commit_currentRound.
  - intros t Ht. apply commit_In in Ht. auto.
Qed.

Ltac round_goals H2 :=
  unfold roundMatches; cbn; autorewrite with simon; cbn;
  split;
  [ try reflexivity; try assumption
  | let t := fresh "t" in
    let Ht := fresh "Ht" in
    intros t Ht; timers_in;
    first [ exact I | now apply H2 | (cbn; assumption) | idtac ] ].

Lemma roundMatches_showSequence si seq w :
  roundMatches w -> roundMatches (showSequence si seq w).
Proof. intros [H1 H2]. unfold showSequence. round_goals H2. Qed.

Lemma roundMatches_startGame r s : roundMatches s -> roundMatches (startGame r s).
Proof.
  intros [H1 H2]. unfold startGame. apply roundMatches_showSequence.
  split; [reflexivity|exact H2].
Qed.

Lemma roundMatches_handleButtonClick b s :
  roundMatches s -> roundMatches (handleButtonClick b s).
Proof.
  intros [H1 H2].
  destruct (GameState_eqb (gameState s) input) eqn:E.
  - apply GameState_eqb_eq in E. rewrite (handleButtonClick_cases s b E). cbv zeta.
    destruct (strict_neq _ _); [destruct (strictMode s)|destruct (_ =? _)];
      round_goals H2.
  - unfold handleButtonClick. rewrite E. now split.
Qed.

Lemma roundMatches_resetGame r s : roundMatches s -> roundMatches (resetGame r s).
Proof.
  intros [H1 H2]. unfold resetGame.
  destruct (sequenceInterval s), (buttonPressTimeout s), (negb _); round_goals H2.
Qed.

Lemma roundMatches_goToMenu s : roundMatches s -> roundMatches (goToMenu s).
Proof.
  intros [H1 H2]. unfold goToMenu.
  destruct (sequenceInterval s), (buttonPressTimeout s); round_goals H2.
Qed.

Lemma roundMatches_intervalTick me seq index w :
  roundMatches w -> roundMatches (intervalTick me seq index w).
Proof.
  intros [H1 H2]. unfold intervalTick.
  destruct (isSequenceCancelledRef w); [|destruct (_ <? _)%nat].
  - round_goals H2.
  - split; [exact H1|]. cbn. intros t Ht.
    apply reindex_In in Ht. destruct Ht as (y & Hy & _ & _ & _ & Hc).
    timers_in.
    + destruct Hc as [Hc|(sq & j & k & _ & Hc)].
      * eapply capturedRoundOk_cb; eauto.
      * unfold capturedRoundOk. now rewrite Hc.
    + destruct Hc as [Hc|(sq & j & k & _ & Hc)];
        unfold capturedRoundOk; cbn in Hc; now rewrite <- ?Hc, ?Hc.
  - round_goals H2.
Qed.

Lemma roundMatches_fire r t s :
  In t (timers s) -> roundMatches s -> roundMatches (fire r t s).
Proof.
  intros Ht [H1 H2]. unfold fire.
  set (w := match period t with Some p => _ | None => _ end).
  assert (roundMatches w) as Hw.
  { subst w. destruct (period t); split; cbn; auto.
    - intros x Hx. apply rearm_In in Hx. destruct Hx as (y & Hy & _ & Hc & _).
      eapply capturedRoundOk_cb; eauto.
    - intros x Hx. timers_in. auto. }
  assert (sequence w = sequence s /\ currentRound w = currentRound s) as [Es Er].
  { subst w. destruct (period t); now split. }
  clearbody w. destruct Hw as [W1 W2].
  pose proof (H2 t Ht) as Hc. unfold capturedRoundOk in Hc.
  destruct (cb t); cbn [runCallback].
  - now apply roundMatches_intervalTick.
  - destruct (negb _); now split.
  - destruct (negb _); now split.
  - now split.
  - now split.
  - apply roundMatches_showSequence. now split.
  - apply roundMatches_showSequence. split; cbn; [|exact W2].
    rewrite len_app1. lia.
  - apply roundMatches_showSequence. now split.
Qed.

Lemma roundMatches_mount st : roundMatches (mount st).
Proof.
  pose proof (mount_core st) as H. unfold core in H. cbn in H.
  injection H as _ _ E1 _ E2 _ _ _ _ _ _ _.
  split.
  - now rewrite E1, E2.
  - rewrite mount_timers. intros t [].
Qed.

Lemma roundMatches_apply ev s s' :
  roundMatches s -> apply ev s = Some s' -> roundMatches s'.
Proof.
  intros H. destruct ev; cbn [apply].
  - destruct (_ && _); intros [= <-]. now apply roundMatches_commit, roundMatches_startGame.
  - destruct (inRange _ _); intros [= <-].
    now apply roundMatches_commit, roundMatches_handleButtonClick.
  - destruct (_ && _); intros [= <-]. now apply roundMatches_commit, roundMatches_resetGame.
  - destruct (negb _); intros [= <-]. now apply roundMatches_commit, roundMatches_goToMenu.
  - destruct (GameState_eqb _ _); intros [= <-]. now apply roundMatches_commit.
  - destruct (GameState_eqb _ _); intros [= <-]. now apply roundMatches_commit.
  - destruct (nextTimer _) as [t|] eqn:E; [|discriminate].
    destruct (drawOk _ _); intros [= <-].
    apply roundMatches_commit, roundMatches_fire; auto using nextTimer_In.
  - destruct (_ && _); intros [= <-]. exact H.
Qed.

Lemma reachable_roundMatches s : reachable s -> roundMatches s.
Proof.
  induction 1 as [st|s ev s' _ IH H].
  - apply roundMatches_mount.
  - eapply roundMatches_apply; eauto.
Qed.

Lemma run_reachable evs s s' : reachable s -> run evs s = Some s' -> reachable s'.
Proof.
  revert s. induction evs as [|ev evs IH]; cbn; intros s Hs.
  - now intros [= <-].
  - destruct (apply ev s) as [s1|] eqn:E; [|discriminate].
    apply IH. eapply reachable_step; eauto.
Qed.

Lemma exec_reachable evs s : reachable s -> reachable (exec evs s).
Proof.
  intros Hs. unfold exec. destruct (run evs s) eqn:E; [|exact Hs].
  eapply run_reachable; eauto.
Qed.

Lemma inRange_spec r d : inRange r d = true <-> 0 <= r < buttons (DIFFICULTY_CONFIG d).
Proof. unfold inRange. rewrite andb_true_iff, Z.leb_le, Z.ltb_lt. tauto. Qed.

(** C2: in every reachable state whose [gameState] is [showing],
    [input], [success] or [failure], the sequence is as long as
    [currentRound] says, for every difficulty; and starting a game
    yields a sequence of length 1 and round 1. *)
Theorem C2_sequence_length_is_round (s : State) :
  reachable s ->
  (forall d, difficulty s = d ->
     gameState s = showing \/ gameState s = input \/
     gameState s = success \/ gameState s = failure ->
     len (sequence s) = currentRound s) /\
  (forall r s', apply (Start r) s = Some s' ->
     len (sequence s') = 1 /\ currentRound s' = 1 /\ sequence s' = [r] /\
     gameState s' = showing).
Proof.
  intros H. split.
  - intros d _ _. now apply reachable_roundMatches.
  - intros r s'. cbn [apply]. destruct (_ && _); [|discriminate]. intros [= <-].
    rewrite commit_sequence, commit_currentRound, commit_gameState.
    unfold startGame, showSequence. cbn. autorewrite with simon. cbn. auto.
Qed.

Lemma C2_witness :
  reachable played2 /\
  len (sequence played2) = currentRound played2 /\
  len (sequence (exec [Start 3] (mount emptyStorage))) = 1.
Proof.
  assert (reachable played2) as H by apply exec_reachable, reachable_mount.
  split; [exact H|]. split.
  - apply (proj1 (C2_sequence_length_is_round played2 H) easy).
    + vm_compute. reflexivity.
    + right. left. vm_compute. reflexivity.
  - apply (proj2 (C2_sequence_length_is_round (mount emptyStorage)
                    (reachable_mount emptyStorage)) 3).
    vm_compute. reflexivity.
Defined.

(** ** The settle delays *)




Lemma click_keeps_game (s : State) (b : Z) :
  let s1 := commit s (handleButtonClick b s) in
  sequence s1 = sequence s /\ currentRound s1 = currentRound s.
Proof.
  cbv zeta. rewrite commit_sequence, commit_currentRound.
  destruct (GameState_eqb (gameState s) input) eqn:E.
  - apply GameState_eqb_eq in E. rewrite (handleButtonClick_cases s b E). cbv zeta.
    destruct (strict_neq _ _); [destruct (strictMode s)|destruct (_ =? _)];
      cbn; autorewrite with simon; now split.
  - unfold handleButtonClick. rewrite E. now split.
Qed.

Lemma showSequence_gameState si seq w : gameState (showSequence si seq w) = gameState w.
Proof. unfold showSequence. cbn. now autorewrite with simon. Qed.

Lemma showSequence_sequence si seq w : sequence (showSequence si seq w) = sequence w.
Proof. unfold showSequence. cbn. now autorewrite with simon. Qed.

Lemma showSequence_playerInput si seq w :
  playerInput (showSequence si seq w) = playerInput w.
Proof. unfold showSequence. cbn. now autorewrite with simon. Qed.

Lemma showSequence_currentRound si seq w :
  currentRound (showSequence si seq w) = currentRound w.
Proof. unfold showSequence. cbn. now autorewrite with simon. Qed.

Lemma showSequence_now si seq w : now (showSequence si seq w) = now w.
Proof. unfold showSequence. cbn. now autorewrite with simon. Qed.

Lemma showSequence_cancelled si seq w :
  isSequenceCancelledRef (showSequence si seq w) = false.
Proof. unfold showSequence. cbn. now autorewrite with simon. Qed.

#[local] Hint Rewrite showSequence_gameState showSequence_sequence
  showSequence_playerInput showSequence_currentRound showSequence_now : simon.

Lemma click_outcome (s : State) (b : Z) :
  gameState s = input ->
  let newInput := playerInput s ++ [b] in
  let s1 := commit s (handleButtonClick b s) in
  playerInput s1 = newInput /\
  (aget (sequence s) (len newInput - 1) <> Some b -> gameState s1 = failure) /\
  (aget (sequence s) (len newInput - 1) = Some b ->
   len newInput = len (sequence s) -> gameState s1 = success).
Proof.
  intros H. cbv zeta. rewrite commit_playerInput, commit_gameState.
  rewrite (handleButtonClick_cases s b H). cbv zeta. repeat split.
  - destruct (strict_neq _ _); [destruct (strictMode s)|destruct (_ =? _)]; reflexivity.
  - intros E. apply strict_neq_Some_true in E. rewrite E.
    destruct (strictMode s); reflexivity.
  - intros E1 E2. apply strict_neq_Some in E1. rewrite E1.
    apply Z.eqb_eq in E2. rewrite E2. reflexivity.
Qed.





(** ** The input kept during [failure] *)

Lemma intervalTick_playerInput me seq index w :
  playerInput (intervalTick me seq index w) = playerInput w.
Proof.
  unfold intervalTick.
  destruct (isSequenceCancelledRef w); [|destruct (_ <? _)%nat]; reflexivity.
Qed.

(** C10: a mismatching index is appended to [playerInput] before the
    state becomes [failure]; a mismatch at the last position leaves
    [playerInput] as long as [sequence]; and while the state is
    [failure], [playerInput] changes only by Restart, by Back to Menu or
    by a settle-delay callback (l.195, l.203, l.216). *)
Theorem C10_mismatch_kept_during_failure (s : State) (b : Z) :
  gameState s = input ->
  aget (sequence s) (len (playerInput s ++ [b]) - 1) <> Some b ->
  let s1 := commit s (handleButtonClick b s) in
  playerInput s1 = playerInput s ++ [b] /\
  gameState s1 = failure /\
  (len (playerInput s ++ [b]) = len (sequence s) ->
   len (playerInput s1) = len (sequence s1)) /\
  forall s2 ev s3,
    gameState s2 = failure ->
    apply ev s2 = Some s3 ->
    playerInput s3 <> playerInput s2 ->
    (exists r, ev = Restart r) \/ ev = Menu \/
    (exists r t, ev = Fire r /\ nextTimer (timers s2) = Some t /\
                 settles (cb t) = true).
Proof.
  intros H E. cbv zeta.
  destruct (click_outcome s b H) as (P & O & _).
  destruct (click_keeps_game s b) as (K1 & _).
  split; [exact P|]. split; [auto|]. split; [now rewrite P, K1|].
  intros s2 ev s3 G A D.
  destruct ev; cbn [apply] in A.
  - rewrite G in A. discriminate.
  - destruct (inRange _ _); [|discriminate]. injection A as <-.
    exfalso. apply D. rewrite commit_playerInput.
    unfold handleButtonClick. now rewrite G.
  - eauto.
  - auto.
  - rewrite G in A. discriminate.
  - rewrite G in A. discriminate.
  - right. right. exists r.
    destruct (nextTimer _) as [t|]; [|discriminate].
    destruct (drawOk _ _); [|discriminate]. injection A as <-.
    exists t. repeat split.
    destruct (settles (cb t)) eqn:S; [reflexivity|].
    exfalso. apply D. rewrite commit_playerInput. unfold fire.
    set (w := match period t with Some p => _ | None => _ end).
    assert (playerInput w = playerInput s2) as Ew
      by (subst w; now destruct (period t)).
    clearbody w.
    destruct (cb t); cbn [runCallback settles] in *; try discriminate.
    + now rewrite intervalTick_playerInput.
    + now destruct (negb _).
    + now destruct (negb _).
    + exact Ew.
    + now autorewrite with simon.
  - destruct (_ && _); [|discriminate]. injection A as <-.
    exfalso. now apply D.
Qed.

Lemma C10_witness :
  gameState played2 = input /\
  aget (sequence played2) (len (playerInput played2 ++ [3]) - 1) <> Some 3 /\
  playerInput (commit played2 (handleButtonClick 3 played2)) = [3] /\
  len (playerInput (commit played2 (handleButtonClick 3 played2)))
  = len (sequence (commit played2 (handleButtonClick 3 played2))).
Proof.
  assert (gameState played2 = input) as G by (vm_compute; reflexivity).
  assert (aget (sequence played2) (len (playerInput played2 ++ [3]) - 1) <> Some 3) as E
    by (vm_compute; discriminate).
  destruct (C10_mismatch_kept_during_failure played2 3 G E) as (A & _ & B & _).
  split; [exact G|]. split; [exact E|]. split.
  - rewrite A. vm_compute. reflexivity.
  - apply B. vm_compute. reflexivity.
Defined.

(** ** Handles are distinct *)

Lemma ordered_filter n f ts : ordered n ts -> ordered n (filter f ts).
Proof.
  intros [H1 H2]. split.
  - clear H2. induction ts as [|a ts IH]; cbn; [constructor|].
    inversion H1 as [|? ? Ha Hts]; subst.
    destruct (f a); cbn; auto. constructor; auto.
    intros Hin. apply Ha. apply in_map_iff in Hin. destruct Hin as (x & Hx & Hin).
    apply filter_In in Hin. apply in_map_iff. exists x. tauto.
  - intros t Ht. apply filter_In in Ht. apply H2. tauto.
Qed.

Lemma ordered_add n ts t :
  ordered n ts -> tid t = n -> ordered (S n) (ts ++ [t]).
Proof.
  intros [H1 H2] E. split.
  - rewrite map_app. cbn. apply NoDup_app; auto.
    + repeat constructor. intros [].
    + intros x Hx [<-|[]]. apply in_map_iff in Hx. destruct Hx as (y & Hy & Hin).
      apply H2 in Hin. lia.
  - intros x Hx. apply in_app_or in Hx. destruct Hx as [Hx|[<-|[]]].
    + apply H2 in Hx. lia.
    + lia.
Qed.

Lemma ordered_map n f ts :
  (forall x, tid (f x) = tid x) -> ordered n ts -> ordered n (map f ts).
Proof.
  intros Hf [H1 H2]. split.
  - rewrite map_map. erewrite map_ext; [exact H1|]. exact Hf.
  - intros t Ht. apply in_map_iff in Ht. destruct Ht as (x & <- & Hx).
    rewrite Hf. auto.
Qed.

Lemma ordered_rearm n t p ts : ordered n ts -> ordered n (rearm t p ts).
Proof.
  apply ordered_map. intros x. now destruct (Nat.eqb _ _).
Qed.

Lemma ordered_reindex n me i ts : ordered n ts -> ordered n (reindex me i ts).
Proof.
  apply ordered_map. intros x. destruct (Nat.eqb _ _); [|reflexivity].
  now destruct (cb x).
Qed.

Lemma ordered_clearHandle h w :
  ordered (nextTimerId w) (timers w) ->
  ordered (nextTimerId (clearHandle h w)) (timers (clearHandle h w)).
Proof.
  destruct h; cbn; auto. apply ordered_filter.
Qed.

Ltac ordered_goals :=
  cbn; autorewrite with simon; cbn;
  repeat first
    [ assumption
    | apply ordered_add; [|reflexivity]
    | apply ordered_filter
    | apply ordered_reindex
    | apply ordered_rearm
    | match goal with
      | |- ordered _ (timers (clearHandle ?h ?w)) =>
          apply (ordered_clearHandle h w); cbn
      end ].

Lemma distinct_showSequence si seq w : distinct w -> distinct (showSequence si seq w).
Proof.
  unfold distinct. intros H. unfold showSequence. cbn.
  apply ordered_add; [|reflexivity].
  pose proof (ordered_clearHandle si (setCancelled false (setShowingIndex (-1) w)) H) as K.
  autorewrite with simon in *. exact K.
Qed.

Lemma distinct_handleButtonClick b s : distinct s -> distinct (handleButtonClick b s).
Proof.
  unfold distinct. intros H.
  destruct (GameState_eqb (gameState s) input) eqn:E.
  - apply GameState_eqb_eq in E. rewrite (handleButtonClick_cases s b E). cbv zeta.
    pose proof (ordered_clearHandle (buttonPressTimeout s) (setShowingIndex b s) H) as K.
    autorewrite with simon in K. cbn in K.
    destruct (strict_neq _ _); [destruct (strictMode s)|destruct (_ =? _)];
      cbn; autorewrite with simon; cbn;
      repeat (apply ordered_add; [|reflexivity]); exact K.
  - unfold handleButtonClick. now rewrite E.
Qed.

Lemma distinct_resetGame r s : distinct s -> distinct (resetGame r s).
Proof.
  unfold distinct. intros H. unfold resetGame.
  destruct (sequenceInterval s), (buttonPressTimeout s), (negb _); ordered_goals.
Qed.

Lemma distinct_goToMenu s : distinct s -> distinct (goToMenu s).
Proof.
  unfold distinct. intros H. unfold goToMenu.
  destruct (sequenceInterval s), (buttonPressTimeout s); ordered_goals.
Qed.

Lemma distinct_intervalTick me seq index w :
  distinct w -> distinct (intervalTick me seq index w).
Proof.
  unfold distinct. intros H. unfold intervalTick.
  destruct (isSequenceCancelledRef w); [|destruct (_ <? _)%nat]; ordered_goals.
Qed.

Lemma distinct_runCallback r me c w : distinct w -> distinct (runCallback r me c w).
Proof.
  intros H. destruct c; cbn [runCallback].
  - now apply distinct_intervalTick.
  - destruct (negb _); auto.
  - destruct (negb _); auto.
  - exact H.
  - exact H.
  - now apply distinct_showSequence.
  - now apply distinct_showSequence.
  - now apply distinct_showSequence.
Qed.

Lemma distinct_fire r t s : distinct s -> distinct (fire r t s).
Proof.
  intros H. unfold fire. apply distinct_runCallback.
  unfold distinct in *. destruct (period t); ordered_goals.
Qed.

Lemma distinct_commit p w : distinct w -> distinct (commit p w).
Proof.
  unfold distinct. intros H. rewrite commit_nextTimerId, commit_timers.
  unfold cleanupTimers. destruct (_ && _); [exact H|].
  pose proof (ordered_clearHandle (sequenceInterval p) w H) as K.
  pose proof (ordered_clearHandle (buttonPressTimeout p) _ K) as K'.
  now autorewrite with simon in K'.
Qed.

Lemma distinct_mount st : distinct (mount st).
Proof.
  unfold distinct. rewrite mount_timers. split; [constructor|intros t []].
Qed.

Lemma distinct_apply ev s s' : distinct s -> apply ev s = Some s' -> distinct s'.
Proof.
  intros H. destruct ev; cbn [apply].
  - destruct (_ && _); intros [= <-].
    apply distinct_commit. unfold startGame. now apply distinct_showSequence.
  - destruct (inRange _ _); intros [= <-].
    now apply distinct_commit, distinct_handleButtonClick.
  - destruct (_ && _); intros [= <-]. now apply distinct_commit, distinct_resetGame.
  - destruct (negb _); intros [= <-]. now apply distinct_commit, distinct_goToMenu.
  - destruct (GameState_eqb _ _); intros [= <-]. now apply distinct_commit.
  - destruct (GameState_eqb _ _); intros [= <-]. now apply distinct_commit.
  - destruct (nextTimer _) as [t|]; [|discriminate].
    destruct (drawOk _ _); intros [= <-]. now apply distinct_commit, distinct_fire.
  - destruct (_ && _); intros [= <-]. exact H.
Qed.

(** ** Calm runs *)

Lemma majors_app ts t :
  majors (ts ++ [t]) = majors ts ++ (if major (cb t) then [t] else []).
Proof. unfold majors. rewrite filter_app. cbn. now destruct (major (cb t)). Qed.

Lemma filter_comm {A} (f g : A -> bool) l : filter f (filter g l) = filter g (filter f l).
Proof.
  induction l as [|a l IH]; cbn; [reflexivity|].
  destruct (f a) eqn:Ef, (g a) eqn:Eg; cbn; rewrite ?Ef, ?Eg, IH; reflexivity.
Qed.

Lemma majors_filter f ts : majors (filter f ts) = filter f (majors ts).
Proof. unfold majors. apply filter_comm. Qed.

Lemma majors_rearm t p ts : majors (rearm t p ts) = rearm t p (majors ts).
Proof.
  unfold majors, rearm. induction ts as [|a ts IH]; cbn; [reflexivity|].
  destruct (Nat.eqb (tid a) (tid t)) eqn:E; cbn;
    destruct (major (cb a)); cbn; rewrite ?E, IH; reflexivity.
Qed.

Lemma majors_reindex me i ts : majors (reindex me i ts) = reindex me i (majors ts).
Proof.
  unfold majors, reindex. induction ts as [|a ts IH]; cbn; [reflexivity|].
  destruct (Nat.eqb (tid a) me) eqn:E; cbn.
  - destruct (cb a) eqn:C; cbn; rewrite ?C; cbn; rewrite ?E, ?C, IH; reflexivity.
  - destruct (major (cb a)); cbn; rewrite ?E, IH; reflexivity.
Qed.

Lemma majors_In ts t : In t (majors ts) <-> In t ts /\ major (cb t) = true.
Proof. unfold majors. apply filter_In. Qed.

Lemma NoDup_tid_inj ts x y :
  NoDup (map tid ts) -> In x ts -> In y ts -> tid x = tid y -> x = y.
Proof.
  induction ts as [|a ts IH]; cbn; [tauto|].
  intros N Hx Hy E. inversion N as [|? ? Ha Hts]; subst.
  destruct Hx as [<-|Hx], Hy as [<-|Hy]; auto.
  - exfalso. apply Ha. rewrite E. now apply in_map.
  - exfalso. apply Ha. rewrite <- E. now apply in_map.
Qed.

Lemma filter_all {A} (f : A -> bool) l :
  (forall x, In x l -> f x = true) -> filter f l = l.
Proof.
  induction l as [|a l IH]; cbn; [reflexivity|]. intros H.
  rewrite (H a) by now left. f_equal. apply IH. intros x Hx. apply H. now right.
Qed.

(** Clearing the handle of a timer that is not a major one leaves the
    major ones alone. *)
Lemma majors_clear_minor ts t :
  NoDup (map tid ts) -> In t ts -> major (cb t) = false ->
  majors (filter (fun x => negb (Nat.eqb (tid x) (tid t))) ts) = majors ts.
Proof.
  intros N Ht M. rewrite majors_filter. apply filter_all.
  intros x Hx. apply majors_In in Hx. destruct Hx as [Hx Mx].
  apply negb_true_iff, Nat.eqb_neq. intros E.
  assert (x = t) by eauto using NoDup_tid_inj. congruence.
Qed.

Lemma majors_clear_self ts t :
  majors ts = [t] ->
  majors (filter (fun x => negb (Nat.eqb (tid x) (tid t))) ts) = [].
Proof.
  intros E. rewrite majors_filter, E. cbn. now rewrite Nat.eqb_refl.
Qed.

Lemma majors_clear_nil f ts : majors ts = [] -> majors (filter f ts) = [].
Proof. intros E. now rewrite majors_filter, E. Qed.

Lemma majors_clearHandle_nil h w :
  majors (timers w) = [] -> majors (timers (clearHandle h w)) = [].
Proof. destruct h; cbn; auto using majors_clear_nil. Qed.

(** *** Every timer is a timeout, but the tick *)

Lemma wellTimed_commit p w :
  (forall t, In t (timers w) -> wellTimed t) ->
  forall t, In t (timers (commit p w)) -> wellTimed t.
Proof. intros H t Ht. apply commit_In in Ht. auto. Qed.

Ltac timed_goals H :=
  cbn; autorewrite with simon; cbn;
  let t := fresh "t" in
  let Ht := fresh "Ht" in
  intros t Ht; timers_in;
  first [ now apply H | (cbv; congruence) ].

Lemma wellTimed_showSequence si seq w :
  (forall t, In t (timers w) -> wellTimed t) ->
  forall t, In t (timers (showSequence si seq w)) -> wellTimed t.
Proof. intros H. unfold showSequence. timed_goals H. Qed.

Lemma wellTimed_handleButtonClick b s :
  (forall t, In t (timers s) -> wellTimed t) ->
  forall t, In t (timers (handleButtonClick b s)) -> wellTimed t.
Proof.
  intros H.
  destruct (GameState_eqb (gameState s) input) eqn:E.
  - apply GameState_eqb_eq in E. rewrite (handleButtonClick_cases s b E). cbv zeta.
    destruct (strict_neq _ _); [destruct (strictMode s)|destruct (_ =? _)];
      timed_goals H.
  - unfold handleButtonClick. now rewrite E.
Qed.

Lemma wellTimed_resetGame r s :
  (forall t, In t (timers s) -> wellTimed t) ->
  forall t, In t (timers (resetGame r s)) -> wellTimed t.
Proof.
  intros H. unfold resetGame.
  destruct (sequenceInterval s), (buttonPressTimeout s), (negb _); timed_goals H.
Qed.

Lemma wellTimed_goToMenu s :
  (forall t, In t (timers s) -> wellTimed t) ->
  forall t, In t (timers (goToMenu s)) -> wellTimed t.
Proof.
  intros H. unfold goToMenu.
  destruct (sequenceInterval s), (buttonPressTimeout s); timed_goals H.
Qed.

Lemma wellTimed_same t t' :
  period t = period t' ->
  (cb t = cb t' \/ exists seq j k, cb t = CbInterval seq j /\ cb t' = CbInterval seq k) ->
  wellTimed t -> wellTimed t'.
Proof.
  unfold wellTimed. intros Ep [Ec|(seq & j & k & E1 & E2)].
  - now rewrite Ep, Ec.
  - now rewrite Ep, E1, E2.
Qed.

Lemma wellTimed_intervalTick me seq index w :
  (forall t, In t (timers w) -> wellTimed t) ->
  forall t, In t (timers (intervalTick me seq index w)) -> wellTimed t.
Proof.
  intros H. unfold intervalTick.
  destruct (isSequenceCancelledRef w); [|destruct (_ <? _)%nat].
  - timed_goals H.
  - cbn. intros t Ht. apply reindex_In in Ht.
    destruct Ht as (y & Hy & _ & _ & Ep & Hc).
    apply (wellTimed_same y t Ep Hc).
    timers_in; [now apply H | cbv; congruence].
  - timed_goals H.
Qed.

Lemma wellTimed_fire r t s :
  (forall x, In x (timers s) -> wellTimed x) ->
  forall x, In x (timers (fire r t s)) -> wellTimed x.
Proof.
  intros H. unfold fire.
  set (w := match period t with Some p => _ | None => _ end).
  assert (forall x, In x (timers w) -> wellTimed x) as Hw.
  { subst w. destruct (period t); cbn; intros x Hx.
    - apply rearm_In in Hx. destruct Hx as (y & Hy & _ & Hc & Hp).
      apply (wellTimed_same y x Hp (or_introl Hc)). auto.
    - timers_in. auto. }
  clearbody w. destruct (cb t); cbn [runCallback].
  - now apply wellTimed_intervalTick.
  - now destruct (negb _).
  - now destruct (negb _).
  - exact Hw.
  - exact Hw.
  - now apply wellTimed_showSequence.
  - now apply wellTimed_showSequence.
  - now apply wellTimed_showSequence.
Qed.

Lemma phaseOk_ext s s' :
  gameState s' = gameState s -> sequence s' = sequence s ->
  playerInput s' = playerInput s -> sequenceInterval s' = sequenceInterval s ->
  isSequenceCancelledRef s' = isSequenceCancelledRef s ->
  majors (timers s') = majors (timers s) ->
  phaseOk s -> phaseOk s'.
Proof.
  unfold phaseOk. intros -> -> -> -> -> ->. auto.
Qed.

Lemma majors_cleanup p w :
  fresh p -> keptByCleanup p w ->
  majors (timers (cleanupTimers p w w)) = majors (timers w).
Proof.
  intros (_ & F2 & F3) K. unfold cleanupTimers.
  destruct (_ && _) eqn:E; [reflexivity|].
  destruct K as [[K1 K2]|K].
  - now rewrite K1, K2, !handle_eqb_refl in E.
  - assert (forall h q, (forall i, h = Some i -> (i < nextTimerId p)%nat) ->
              majors (timers q) = majors (timers w) ->
              majors (timers (clearHandle h q)) = majors (timers w)) as A.
    { intros [i|] q Hh Hq; cbn; [|exact Hq].
      rewrite majors_filter, Hq. apply filter_all.
      intros x Hx. apply K in Hx. specialize (Hh i eq_refl).
      apply negb_true_iff, Nat.eqb_neq. lia. }
    apply A; [exact F3|]. apply A; [exact F2|reflexivity].
Qed.

Lemma phaseOk_commit p w :
  fresh p -> keptByCleanup p w -> phaseOk w -> phaseOk (commit p w).
Proof.
  intros F K. apply phaseOk_ext.
  - apply commit_gameState.
  - apply commit_sequence.
  - apply commit_playerInput.
  - apply commit_sequenceInterval.
  - apply commit_cancelled.
  - rewrite commit_timers. now apply majors_cleanup.
Qed.

Lemma phase_startGame r s :
  phaseOk s -> gameState s = idle ->
  phaseOk (startGame r s) /\ keptByCleanup s (startGame r s).
Proof.
  unfold phaseOk at 1. intros P G. rewrite G in P. destruct P as (M & _ & _).
  assert (majors (timers (startGame r s))
          = [{| tid := nextTimerId s; due := now s + 700; period := Some 700;
                cb := CbInterval [r] 0 |}]) as E.
  { unfold startGame, showSequence. cbn. autorewrite with simon. cbn.
    rewrite majors_app. cbn.
    rewrite majors_clearHandle_nil by exact M. reflexivity. }
  split.
  - unfold phaseOk. rewrite E. unfold startGame.
    rewrite showSequence_gameState, showSequence_playerInput, showSequence_sequence,
      showSequence_cancelled.
    cbn. repeat split; [discriminate|].
    eexists. split; [reflexivity|]. cbn. split; [|reflexivity].
    unfold showSequence. cbn. now autorewrite with simon.
  - right. rewrite E. intros t [<-|[]]. cbn. lia.
Qed.

Lemma aget_app_len (p rest : list Z) : aget (p ++ rest) (len p) = hd_error rest.
Proof.
  unfold aget, len. destruct (_ <? 0) eqn:E; [apply Z.ltb_lt in E; lia|].
  rewrite Nat2Z.id, nth_error_app2, Nat.sub_diag by lia. now destruct rest.
Qed.

Lemma phase_handleButtonClick b s :
  phaseOk s ->
  phaseOk (handleButtonClick b s) /\ keptByCleanup s (handleButtonClick b s).
Proof.
  intros P.
  destruct (GameState_eqb (gameState s) input) eqn:G.
  2:{ unfold handleButtonClick. rewrite G. cbn. split; [exact P|]. left. now split. }
  apply GameState_eqb_eq in G.
  unfold phaseOk in P. rewrite G in P. destruct P as (M & rest & Hr & Hs).
  rewrite (handleButtonClick_cases s b G). cbv zeta.
  set (w0 := setPlayerInput _ _).
  assert (majors (timers w0) = []) as M0.
  { subst w0. cbn. autorewrite with simon. cbn. rewrite majors_app. cbn.
    rewrite majors_clearHandle_nil by exact M. reflexivity. }
  assert (gameState w0 = input /\ sequence w0 = sequence s /\
          playerInput w0 = playerInput s ++ [b] /\ nextTimerId w0 = S (nextTimerId s))
    as (G0 & S0 & P0 & N0).
  { subst w0. cbn. autorewrite with simon. cbn. auto. }
  clearbody w0.
  rewrite len_app1, Z.add_simpl_r, Hs, aget_app_len.
  destruct rest as [|x rest]; [contradiction|]. cbn [hd_error].
  destruct (strict_neq (Some b) (Some x)) eqn:E.
  - apply strict_neq_Some_true in E.
    assert (majors (timers (snd (setTimeout
              (if strictMode s then CbStrictOver
               else CbRetry (playerInput s ++ x :: rest) (sequenceInterval s))
              1500 (setGameState failure w0))))
            = [{| tid := S (nextTimerId s); due := now w0 + 1500; period := None;
                  cb := if strictMode s then CbStrictOver
                        else CbRetry (playerInput s ++ x :: rest) (sequenceInterval s) |}])
      as E1.
    { cbn. rewrite majors_app, M0, N0. now destruct (strictMode s). }
    split.
    + unfold phaseOk. cbn. rewrite S0, P0, Hs. split.
      * exists (playerInput s), b, (x :: rest). repeat split; [discriminate|].
        cbn. congruence.
      * cbn in E1. rewrite E1. eexists. split; [reflexivity|]. cbn.
        destruct (strictMode s); eauto.
    + right. intros t Ht. rewrite E1 in Ht. destruct Ht as [<-|[]]. cbn. lia.
  - apply strict_neq_Some in E. injection E as ->.
    rewrite <- Hs.
    replace (len (playerInput s) + 1) with (len (playerInput s ++ [b]))
      by apply len_app1.
    destruct (_ =? _) eqn:L.
    + assert (rest = []) as ->.
      { apply Z.eqb_eq in L. rewrite Hs in L. unfold len in L.
        rewrite !length_app in L. cbn in L. destruct rest; [reflexivity|cbn in L; lia]. }
      split.
      * unfold phaseOk. cbn. rewrite S0, P0, Hs. repeat split.
        { intros K. apply (f_equal (@length Z)) in K. rewrite length_app in K.
          cbn in K. lia. }
        rewrite majors_app, M0. cbn. eexists. split; [reflexivity|]. cbn. eauto.
      * right. intros t Ht. cbn in Ht. rewrite majors_app, M0 in Ht.
        destruct Ht as [<-|[]]. cbn. lia.
    + split.
      * unfold phaseOk. rewrite G0, S0, P0. split; [exact M0|].
        exists rest. split.
        { intros ->. rewrite Hs, Z.eqb_refl in L. discriminate. }
        rewrite Hs, <- app_assoc. reflexivity.
      * right. rewrite M0. intros t [].
Qed.

(** On a calm Restart or Back to Menu the only major timer there can be
    is the tick of the playback, under the handle the component keeps. *)
Lemma calm_majors s :
  phaseOk s ->
  forallb (fun t => negb (critical (cb t))) (timers s) = true ->
  majors (timers s) = [] \/
  exists t, majors (timers s) = [t] /\ sequenceInterval s = Some (tid t).
Proof.
  intros P C. rewrite forallb_forall in C.
  assert (forall t, majors (timers s) = [t] -> critical (cb t) = false) as K.
  { intros t E. assert (In t (majors (timers s))) as Ht by (rewrite E; now left).
    apply majors_In in Ht. destruct Ht as [Ht _]. apply C in Ht.
    now apply negb_true_iff in Ht. }
  unfold phaseOk in P. destruct (gameState s).
  - left. tauto.
  - destruct P as (_ & _ & t & E & Ht). right. exists t. split; [exact E|].
    apply K in E. destruct (cb t); try discriminate; tauto.
  - left. tauto.
  - destruct P as (_ & _ & t & E & (a & b & c & d & Ht)).
    apply K in E. rewrite Ht in E. discriminate.
  - destruct P as (_ & t & E & [Ht|(a & b & Ht)]);
      apply K in E; rewrite Ht in E; discriminate.
Qed.

Lemma cancel_majors s w :
  majors (timers s) = [] \/
  (exists t, majors (timers s) = [t] /\ sequenceInterval s = Some (tid t)) ->
  timers w = timers s ->
  majors (timers (match sequenceInterval s with
                  | Some i => setSequenceInterval None (clearTimer i w)
                  | None => w
                  end)) = [].
Proof.
  intros [E|(t & E & Hs)] Hw.
  - destruct (sequenceInterval s); cbn; rewrite Hw; auto using majors_clear_nil.
  - rewrite Hs. cbn. rewrite Hw. now apply majors_clear_self.
Qed.

Lemma phase_resetGame r s :
  phaseOk s -> gameState s <> idle ->
  forallb (fun t => negb (critical (cb t))) (timers s) = true ->
  phaseOk (resetGame r s) /\ keptByCleanup s (resetGame r s).
Proof.
  intros P G C.
  pose proof (cancel_majors s (setCancelled true s) (calm_majors s P C) eq_refl) as M.
  unfold resetGame.
  set (w1 := match sequenceInterval s with Some i => _ | None => _ end) in *.
  assert (nextTimerId w1 = nextTimerId s) as N1
    by (subst w1; now destruct (sequenceInterval s)).
  clearbody w1.
  set (w2 := match buttonPressTimeout s with Some i => _ | None => _ end).
  assert (majors (timers w2) = [] /\ nextTimerId w2 = nextTimerId s) as (M2 & N2).
  { subst w2. destruct (buttonPressTimeout s); cbn; auto using majors_clear_nil. }
  clearbody w2.
  destruct (GameState_eqb (gameState s) idle) eqn:E;
    [apply GameState_eqb_eq in E; contradiction|].
  cbn [negb].
  assert (majors (timers (snd (setTimeout (CbResetShow [r] (sequenceInterval s)) 50
            (setGameState showing (setSequence [r] (setCurrentRound 1
               (setPlayerInput [] (setShowingIndex (-1) w2))))))))
          = [{| tid := nextTimerId s; due := now w2 + 50; period := None;
                cb := CbResetShow [r] (sequenceInterval s) |}]) as E1.
  { cbn. rewrite majors_app, M2, N2. reflexivity. }
  split.
  - unfold phaseOk. rewrite E1. cbn. repeat split; [discriminate|].
    eexists. split; [reflexivity|]. exact I.
  - right. rewrite E1. intros t [<-|[]]. cbn. lia.
Qed.

Lemma phase_goToMenu s :
  phaseOk s ->
  forallb (fun t => negb (critical (cb t))) (timers s) = true ->
  phaseOk (goToMenu s) /\ keptByCleanup s (goToMenu s).
Proof.
  intros P C.
  pose proof (cancel_majors s (setCancelled true s) (calm_majors s P C) eq_refl) as M.
  unfold goToMenu.
  set (w1 := match sequenceInterval s with Some i => _ | None => _ end) in *.
  clearbody w1.
  set (w2 := match buttonPressTimeout s with Some i => _ | None => _ end).
  assert (majors (timers w2) = []) as M2.
  { subst w2. destruct (buttonPressTimeout s); cbn; auto using majors_clear_nil. }
  clearbody w2.
  split.
  - unfold phaseOk. cbn. auto.
  - right. cbn. rewrite M2. intros t [].
Qed.

Lemma rearm_single t p :
  rearm t p [t] = [{| tid := tid t; due := due t + p; period := period t; cb := cb t |}].
Proof. unfold rearm. cbn. now rewrite Nat.eqb_refl. Qed.

Lemma reindex_single t seq index i :
  cb t = CbInterval seq index ->
  reindex (tid t) i [t]
  = [{| tid := tid t; due := due t; period := period t; cb := CbInterval seq i |}].
Proof. intros E. unfold reindex. cbn. now rewrite Nat.eqb_refl, E. Qed.

(** A callback that is not a major one only clears the highlight. *)
Lemma phase_fire_minor r t s :
  tidy s -> In t (timers s) -> major (cb t) = false ->
  phaseOk (fire r t s) /\ keptByCleanup s (fire r t s).
Proof.
  intros ([ND _] & _ & W & P) Ht M.
  assert (period t = None) as Ep.
  { specialize (W t Ht). unfold wellTimed in W. destruct (cb t); try discriminate; auto. }
  unfold fire. rewrite Ep.
  set (w := clearTimer (tid t) _).
  assert (majors (timers w) = majors (timers s)) as Em
    by (subst w; cbn; now apply majors_clear_minor).
  assert (phaseOk w) as Pw by (revert P; now apply phaseOk_ext).
  assert (sequenceInterval w = sequenceInterval s /\
          buttonPressTimeout w = buttonPressTimeout s) as [E1 E2] by now split.
  clearbody w.
  destruct (cb t); try discriminate; cbn [runCallback].
  - destruct (negb _); (split; [|left; now split]); [|exact Pw].
    revert Pw. now apply phaseOk_ext.
  - split; [|left; now split]. revert Pw. now apply phaseOk_ext.
Qed.

Lemma phase_showSequence si seq w n :
  majors (timers w) = [] -> gameState w = showing -> playerInput w = [] ->
  sequence w <> [] -> nextTimerId w = n ->
  phaseOk (showSequence si seq w) /\
  forall t, In t (majors (timers (showSequence si seq w))) -> (n <= tid t)%nat.
Proof.
  intros M G Pi Sq N.
  assert (majors (timers (showSequence si seq w))
          = [{| tid := n; due := now w + 700; period := Some 700;
                cb := CbInterval seq 0 |}]) as E.
  { unfold showSequence. cbn. autorewrite with simon. cbn.
    rewrite majors_app. cbn.
    rewrite majors_clearHandle_nil by exact M. subst n. reflexivity. }
  split.
  - unfold phaseOk. rewrite E.
    rewrite showSequence_gameState, showSequence_playerInput, showSequence_sequence,
      showSequence_cancelled, G.
    repeat split; auto.
    eexists. split; [reflexivity|]. cbn. split; [|reflexivity].
    unfold showSequence. cbn. autorewrite with simon. subst n. reflexivity.
  - rewrite E. intros t [<-|[]]. cbn. lia.
Qed.

Lemma phase_fire_major r t s :
  tidy s -> In t (timers s) -> major (cb t) = true ->
  phaseOk (fire r t s) /\ keptByCleanup s (fire r t s).
Proof.
  intros (_ & _ & W & P) Ht M.
  assert (In t (majors (timers s))) as Hm by (apply majors_In; now split).
  specialize (W t Ht). unfold wellTimed in W.
  unfold phaseOk in P. unfold fire.
  destruct (gameState s) eqn:G.
  - destruct P as (E & _). rewrite E in Hm. destruct Hm.
  - (* showing *)
    destruct P as (Pi & Sq & t0 & E & Hc).
    rewrite E in Hm. destruct Hm as [<-|[]].
    destruct (cb t0) eqn:C; try contradiction.
    + (* the tick *)
      destruct Hc as (Hsi & Hcan).
      destruct (period t0) as [p|] eqn:Ep; [|contradiction].
      set (w := setTimers _ _).
      assert (majors (timers w)
              = [{| tid := tid t0; due := due t0 + p; period := period t0; cb := cb t0 |}])
        as Ew.
      { subst w. cbn. now rewrite majors_rearm, E, rearm_single. }
      assert (isSequenceCancelledRef w = false /\ gameState w = showing /\
              playerInput w = [] /\ sequence w = sequence s /\
              sequenceInterval w = Some (tid t0) /\
              buttonPressTimeout w = buttonPressTimeout s /\
              nextTimerId w = nextTimerId s) as (C1 & C2 & C3 & C4 & C5 & C6 & C7)
        by (subst w; cbn; auto 10).
      clearbody w. cbn [runCallback]. unfold intervalTick. rewrite C1.
      destruct (_ <? _)%nat.
      * assert (majors (timers (setIndex (tid t0) (S index)
                  (snd (setTimeout (CbClearHighlight (tid t0)) 400
                     (setShowingIndex (nth index seq 0) w)))))
                = [{| tid := tid t0; due := due t0 + p; period := period t0;
                      cb := CbInterval seq (S index) |}]) as E2.
        { cbn. rewrite majors_reindex, majors_app, Ew. cbn.
          rewrite C.
          exact (reindex_single
                   {| tid := tid t0; due := due t0 + p; period := period t0;
                      cb := CbInterval seq index |} seq index (S index) eq_refl). }
        split.
        -- unfold phaseOk. rewrite E2. cbn. rewrite C2, C3, C4.
           repeat split; auto. eexists. split; [reflexivity|]. cbn. auto.
        -- left. cbn. rewrite C5, C6. auto.
      * assert (majors (timers (snd (setTimeout (CbToInput (tid t0)) 600
                  (setSequenceInterval None (clearTimer (tid t0) w)))))
                = [{| tid := nextTimerId s; due := now w + 600; period := None;
                      cb := CbToInput (tid t0) |}]) as E2.
        { cbn. rewrite majors_app, majors_filter, Ew. cbn.
          now rewrite Nat.eqb_refl, C7. }
        split.
        -- unfold phaseOk. rewrite E2. cbn. rewrite C2, C3, C4.
           repeat split; auto. eexists. split; [reflexivity|]. cbn. auto.
        -- right. rewrite E2. intros x [<-|[]]. cbn. lia.
    + (* the end of the playback *)
      rewrite W. cbn [runCallback]. cbn [isSequenceCancelledRef clearTimer setTimers setNow].
      rewrite Hc. cbn [negb]. split.
      * unfold phaseOk. cbn. rewrite Pi. split.
        -- now apply majors_clear_self.
        -- exists (sequence s). now split.
      * left. now split.
    + (* the restart *)
      rewrite W. cbn [runCallback].
      destruct (phase_showSequence si seq
                  (clearTimer (tid t0) (setNow (Z.max (now s) (due t0)) s))
                  (nextTimerId s)) as [A B]; auto.
      { cbn. now apply majors_clear_self. }
      split; [exact A|right; exact B].
  - destruct P as (E & _). rewrite E in Hm. destruct Hm.
  - (* success *)
    destruct P as (Pi & Sq & t0 & E & (round & seq & d & si & C)).
    rewrite E in Hm. destruct Hm as [<-|[]].
    rewrite C in W |- *. rewrite W. cbn [runCallback].
    match goal with
    | |- context [showSequence ?a ?b ?w] =>
        destruct (phase_showSequence a b w (nextTimerId s)) as [A B]
    end; auto.
    + cbn. now apply majors_clear_self.
    + cbn. now destruct seq.
    + split; [exact A|right; exact B].
  - (* failure *)
    destruct P as ((p & b & rest & Pi & Sq & Hr & _) & t0 & E & C).
    rewrite E in Hm. destruct Hm as [<-|[]].
    destruct C as [C|(seq & si & C)]; rewrite C in W |- *; rewrite W; cbn [runCallback].
    + split.
      * unfold phaseOk. cbn. split; [|auto]. now apply majors_clear_self.
      * left. now split.
    + match goal with
      | |- context [showSequence ?a ?b ?w] =>
          destruct (phase_showSequence a b w (nextTimerId s)) as [A B]
      end; auto.
      * cbn. now apply majors_clear_self.
      * cbn. rewrite Sq. now destruct p, rest.
      * split; [exact A|right; exact B].
Qed.

Lemma tidy_mount st : tidy (mount st).
Proof.
  repeat split.
  - apply distinct_mount.
  - apply distinct_mount.
  - apply fresh_mount.
  - apply fresh_mount.
  - apply fresh_mount.
  - rewrite mount_timers. intros t [].
  - pose proof (mount_core st) as H. unfold core in H. cbn in H.
    injection H as E1 _ E2 E3 _ _ _ _ _ _ _ _.
    unfold phaseOk. rewrite E1, E2, E3, mount_timers. auto.
Qed.

Lemma tidy_commit p w :
  fresh p -> distinct w -> fresh w -> (forall t, In t (timers w) -> wellTimed t) ->
  phaseOk w /\ keptByCleanup p w -> tidy (commit p w).
Proof.
  intros Fp D F W [P K]. repeat split.
  - apply distinct_commit, D.
  - apply distinct_commit, D.
  - apply fresh_commit, F.
  - apply fresh_commit, F.
  - apply fresh_commit, F.
  - now apply wellTimed_commit.
  - now apply phaseOk_commit.
Qed.

Lemma tidy_apply ev s s' :
  tidy s -> calm ev s = true -> apply ev s = Some s' -> tidy s'.
Proof.
  intros T C. pose proof T as (D & F & W & P). destruct ev; cbn [apply calm] in *.
  - destruct (GameState_eqb _ _) eqn:G; [|discriminate]. apply GameState_eqb_eq in G.
    destruct (inRange _ _); intros [= <-].
    apply tidy_commit; auto.
    + now apply distinct_showSequence.
    + now apply fresh_startGame.
    + now apply wellTimed_showSequence.
    + now apply phase_startGame.
  - destruct (inRange _ _); intros [= <-].
    apply tidy_commit; auto.
    + now apply distinct_handleButtonClick.
    + now apply fresh_handleButtonClick.
    + now apply wellTimed_handleButtonClick.
    + now apply phase_handleButtonClick.
  - destruct (GameState_eqb _ _) eqn:G; [discriminate|].
    destruct (inRange _ _); intros [= <-].
    apply tidy_commit; auto.
    + now apply distinct_resetGame.
    + now apply fresh_resetGame.
    + now apply wellTimed_resetGame.
    + apply phase_resetGame; auto. intros E. now rewrite E in G.
  - destruct (negb _); intros [= <-].
    apply tidy_commit; auto.
    + now apply distinct_goToMenu.
    + now apply fresh_goToMenu.
    + now apply wellTimed_goToMenu.
    + now apply phase_goToMenu.
  - destruct (GameState_eqb _ _); intros [= <-].
    apply tidy_commit; auto. split; [|left; now split].
    revert P. now apply phaseOk_ext.
  - destruct (GameState_eqb _ _); intros [= <-].
    apply tidy_commit; auto. split; [|left; now split].
    revert P. now apply phaseOk_ext.
  - destruct (nextTimer _) as [t|] eqn:N; [|discriminate].
    apply nextTimer_In in N.
    destruct (drawOk _ _); intros [= <-].
    apply tidy_commit; auto.
    + now apply distinct_fire.
    + now apply fresh_fire.
    + now apply wellTimed_fire.
    + destruct (major (cb t)) eqn:M.
      * now apply phase_fire_major.
      * now apply phase_fire_minor.
  - destruct (_ && _); intros [= <-].
    repeat split; try apply D; try apply F; auto.
Qed.

Lemma calmlyReachable_tidy s : calmlyReachable s -> tidy s.
Proof.
  induction 1 as [st|s ev s' _ IH C H].
  - apply tidy_mount.
  - eapply tidy_apply; eauto.
Qed.

Lemma calmlyReachable_reachable s : calmlyReachable s -> reachable s.
Proof.
  induction 1 as [st|s ev s' _ IH C H].
  - apply reachable_mount.
  - eapply reachable_step; eauto.
Qed.

Lemma len_le_app (p rest : list Z) : len p <= len (p ++ rest).
Proof. unfold len. rewrite length_app. lia. Qed.

(** C6, as the code has it: on calm runs (no Restart or Back to Menu
    while a settle-delay, end-of-playback or restart callback is
    pending) [playerInput] is never longer than [sequence]; it equals
    [sequence] exactly when the round is complete ([success]) or no game
    is on ([idle], both empty); the two lengths are equal only in
    [success], [idle] or [failure], and in [failure] the input is a
    prefix of the sequence followed by the index that did not match, so
    that the lengths are equal there after a mistake at the last
    position. *)
Theorem C6_input_within_sequence (s : State) :
  calmlyReachable s ->
  len (playerInput s) <= len (sequence s) /\
  (playerInput s = sequence s <-> gameState s = success \/ gameState s = idle) /\
  (len (playerInput s) = len (sequence s) ->
   gameState s = success \/ gameState s = idle \/ gameState s = failure) /\
  (gameState s = failure ->
   exists p b x rest,
     playerInput s = p ++ [b] /\ sequence s = p ++ x :: rest /\ x <> b /\
     (len (playerInput s) = len (sequence s) <-> rest = [])).
Proof.
  intros H. apply calmlyReachable_tidy in H. destruct H as (_ & _ & _ & P).
  unfold phaseOk in P. destruct (gameState s) eqn:G.
  - destruct P as (_ & -> & ->). repeat split; try discriminate; try lia; auto.
  - destruct P as (-> & Sq & _). repeat split; try discriminate.
    + unfold len. cbn. lia.
    + intros E. now symmetry in E.
    + intros [E|E]; discriminate.
    + intros E. destruct (sequence s); [contradiction|discriminate].
  - destruct P as (_ & rest & Hr & ->). repeat split; try discriminate.
    + apply len_le_app.
    + intros E. rewrite <- (app_nil_r (playerInput s)) in E at 1.
      apply app_inv_head in E. now symmetry in E.
    + intros [E|E]; discriminate.
    + unfold len. rewrite length_app. intros E. destruct rest; [contradiction|cbn in E; lia].
  - destruct P as (-> & _). repeat split; try discriminate; try lia; auto.
  - destruct P as ((p & b & rest & -> & -> & Hr & Hb) & _).
    destruct rest as [|x rest]; [contradiction|]. cbn in Hb.
    assert (x <> b) as Hx by congruence.
    repeat split; auto.
    + unfold len. rewrite !length_app. cbn. lia.
    + intros E. apply app_inv_head in E. congruence.
    + intros [E|E]; discriminate.
    + intros _. exists p, b, x, rest. repeat split; auto.
      * unfold len. rewrite !length_app. cbn. intros E. destruct rest; [reflexivity|cbn in E; lia].
      * intros ->. unfold len. rewrite !length_app. reflexivity.
Qed.

Lemma run_calmlyReachable evs s s' :
  calmlyReachable s ->
  forallb (fun ev => match ev with Restart _ | Menu => false | _ => true end) evs = true ->
  run evs s = Some s' -> calmlyReachable s'.
Proof.
  revert s. induction evs as [|ev evs IH]; cbn; intros s Hs C.
  - now intros [= <-].
  - apply andb_true_iff in C. destruct C as [C1 C2].
    destruct (apply ev s) as [s1|] eqn:E; [|discriminate].
    apply IH; auto. eapply calmly_step; eauto.
    unfold calm. now destruct ev.
Qed.

Lemma C6_witness :
  calmlyReachable missedLast /\
  len (playerInput missedLast) <= len (sequence missedLast) /\
  gameState missedLast = failure /\
  len (playerInput missedLast) = len (sequence missedLast).
Proof.
  assert (calmlyReachable missedLast) as H.
  { apply (run_calmlyReachable
             [Start 2; Fire 0; Fire 0; Fire 0; Fire 0; Click 3] (mount emptyStorage)).
    - apply calmly_mount.
    - reflexivity.
    - vm_compute. reflexivity. }
  split; [exact H|].
  split; [exact (proj1 (C6_input_within_sequence missedLast H))|].
  split; vm_compute; reflexivity.
Defined.

(** C6 as the specification words it fails: after a mistake at the last
    position [playerInput] is as long as [sequence], and the player has
    not reproduced the sequence. *)
Lemma C6_counterexample :
  reachable missedLast /\
  gameState missedLast = failure /\
  len (playerInput missedLast) = len (sequence missedLast) /\
  playerInput missedLast <> sequence missedLast.
Proof.
  split.
  - unfold missedLast, played2. do 2 apply exec_reachable. apply reachable_mount.
  - vm_compute. repeat split; discriminate.
Qed.

(** ** Where the code departs from the specification *)

(** C3 at a concrete run.  Restart sets the cancellation flag while the
    end-of-playback timeout of the first run (handle 3, of the run with
    interval 1) is pending; the timeout is not cleared.  The playback
    that Restart starts 50 ms later (interval 5) resets the flag, and at
    2000 ms the timeout of the cancelled run fires and sets [input],
    before the new run has shown its first element. *)
Theorem C3_cancelled_run_changes_state :
  run [Start 0; Fire 0; Fire 0; Fire 0; Wait 100; Restart 1] (mount emptyStorage)
  = Some cancelledInSettle /\
  isSequenceCancelledRef cancelledInSettle = true /\
  In {| tid := 3; due := 2000; period := None; cb := CbToInput 1 |}
     (timers cancelledInSettle) /\
  apply (Fire 0) cancelledInSettle = Some restartedInSettle /\
  isSequenceCancelledRef restartedInSettle = false /\
  gameState restartedInSettle = showing /\
  sequenceInterval restartedInSettle = Some 5%nat /\
  timers restartedInSettle
  = [{| tid := 3; due := 2000; period := None; cb := CbToInput 1 |};
     {| tid := 5; due := 2250; period := Some 700; cb := CbInterval [1] 0 |}] /\
  gameState (exec [Fire 0] restartedInSettle) = input /\
  now (exec [Fire 0] restartedInSettle) = 2000 /\
  timers (exec [Fire 0] restartedInSettle)
  = [{| tid := 5; due := 2250; period := Some 700; cb := CbInterval [1] 0 |}].
Proof. vm_compute. repeat split; auto. Qed.

(** C7 at a concrete run.  The best score of easy is 2.  After the
    change to medium, which has no stored score, [bestScore] is still 2:
    rounds 1 and 2 of medium are not above it and nothing is stored for
    medium. *)
Theorem C7_best_score_of_second_difficulty :
  run [Start 0; Fire 0; Fire 0; Fire 0; Fire 0; Click 0; Fire 0; Fire 1;
       Menu; SelectDifficulty medium; Start 3] (mount emptyStorage)
  = Some mediumRound1 /\
  difficulty mediumRound1 = medium /\ currentRound mediumRound1 = 1 /\
  bestScore mediumRound1 = 2 /\ localStorage mediumRound1 medium = None /\
  run [Fire 0; Fire 0; Fire 0; Fire 0; Click 3; Fire 0; Fire 5] mediumRound1
  = Some mediumRound2 /\
  difficulty mediumRound2 = medium /\ currentRound mediumRound2 = 2 /\
  bestScore mediumRound2 = 2 /\ localStorage mediumRound2 medium = None /\
  localStorage mediumRound2 easy = Some 2.
Proof. vm_compute. repeat split; auto. Qed.

(** C8 at a concrete run.  Restart is pressed during the settle delay
    of a mistake in strict mode.  The game-over callback, which Restart
    does not cancel, empties the sequence under the new playback, which
    then sets [input]: the next press, index 0 of the four buttons, reads
    [sequence[0]] of an empty sequence, and [playerInput] becomes longer
    than [sequence]. *)
Theorem C8_read_outside_sequence :
  run [ToggleStrict true; Start 2; Fire 0; Fire 0; Fire 0; Fire 0; Click 3;
       Wait 100; Restart 1; Fire 0; Fire 0; Fire 0; Fire 0; Fire 0; Fire 0]
      (mount emptyStorage)
  = Some restartedAfterMistake /\
  gameState restartedAfterMistake = input /\
  sequence restartedAfterMistake = [] /\
  playerInput restartedAfterMistake = [] /\
  inRange 0 (difficulty restartedAfterMistake) = true /\
  aget (sequence restartedAfterMistake)
       (len (playerInput restartedAfterMistake ++ [0]) - 1) = None /\
  gameState (exec [Click 0] restartedAfterMistake) = failure /\
  playerInput (exec [Click 0] restartedAfterMistake) = [0] /\
  sequence (exec [Click 0] restartedAfterMistake) = [].
Proof. vm_compute. repeat split; auto. Qed.

(** The accesses of C8 that are in range: the frequency of every button
    of every difficulty, and the element a tick plays. *)
Lemma playTone_in_range d b :
  inRange b d = true -> exists f, playTone b = Some f.
Proof.
  intros H. apply inRange_spec in H.
  assert (0 <= b < 10) as Hb by (destruct d; cbn in H; lia).
  unfold playTone, aget.
  destruct (b <? 0) eqn:E; [apply Z.ltb_lt in E; lia|].
  destruct (nth_error BUTTON_FREQUENCIES (Z.to_nat b)) eqn:N; [eauto|].
  apply nth_error_None in N. cbn in N. lia.
Qed.


(** ** The renders of a commit settle *)

Lemma renderPass_again p w :
  renderPass w (renderPass p w) = saveBestScore w (renderPass p w) (renderPass p w).
Proof.
  pose proof (renderPass_core p w) as H. unfold core in H.
  injection H as _ Ed _ _ _ _ _ Es Eb _ _ _.
  unfold renderPass at 1. unfold cleanupTimers, loadBestScore.
  now rewrite Es, Eb, Ed, !handle_eqb_refl, Difficulty_eqb_refl.
Qed.

Lemma saveBestScore_same c : saveBestScore c c c = c.
Proof. unfold saveBestScore. now rewrite !Z.eqb_refl, Difficulty_eqb_refl. Qed.

Lemma saveBestScore_settled p c :
  saveBestScore c (saveBestScore p c c) (saveBestScore p c c) = saveBestScore p c c.
Proof.
  assert (saveBestScore p c c = c \/
          (saveBestScore p c c = saveBestScoreBody c c /\
           (currentRound c >? bestScore c) = true)) as [E|[E G]].
  { unfold saveBestScore. destruct (_ && _); [now left|].
    unfold saveBestScoreBody. destruct (_ >? _); [right|left]; auto. }
  - rewrite E. apply saveBestScore_same.
  - rewrite E. unfold saveBestScoreBody. rewrite G.
    unfold saveBestScore. cbn. destruct (_ && _); [reflexivity|].
    unfold saveBestScoreBody. cbn. now rewrite Z.gtb_ltb, Z.ltb_irrefl.
Qed.

Lemma commit_settled p w :
  renderPass (renderPass w (renderPass p w)) (commit p w) = commit p w.
Proof.
  unfold commit. cbv zeta.
  set (w1 := renderPass p w).
  assert (renderPass w1 (renderPass w w1) = renderPass w w1) as E.
  { rewrite (renderPass_again w w1). subst w1. rewrite (renderPass_again p w).
    apply saveBestScore_settled. }
  rewrite E. apply renderPass_same.
Qed.
